(** * Package scheduler: Env/Labels merge and the JSON status stream

    A shallow embedding of the scheduler package of Empire (the file that
    declares [App], [Process], [merge], [Env], [Labels] and
    [jsonmessageStatusStream]).

    Go values are modelled as the program has them:
    - a [map[string]string] is a reference, [nil] or the address of a table
      in a store of tables ([gmap string string] each);
    - a [chan struct{}] is the address of a channel in a store of channels;
    - a method is a computation in a state monad whose result is [Ok], a
      [Panic], or [Block] when the calling goroutine cannot go on in the
      state it is in; the store survives a panic, as it does in Go when
      deferred calls run and the panic is recovered further up;
    - the methods of the stream are given step by step, so that a call can
      be run alone ([run_prog]) or interleaved with the call of another
      goroutine ([interleave]); every step records what it does in a trace.

    The file has the model first (the Go operations, the packages json and
    jsonmessage as far as [Publish] uses them, then package scheduler), the
    definitions that the statements and proofs use, and the theorems:
    [merge], the stream under calls made one after the other, [Publish]
    against [Done], and goroutines. *)

From Stdlib Require Import Ascii.
From stdpp Require Import base option list strings pretty gmap.

Set Default Proof Using "Type".
Set Warnings "-register-all".

(** ** A state monad with panics *)

Inductive result (A : Type) : Type :=
| Ok (a : A)
| Panic (msg : string)
| Block.
Arguments Ok {A} a.
Arguments Panic {A} msg.
Arguments Block {A}.

Definition M (St A : Type) : Type := St -> result A * St.

Definition ret {St A} (a : A) : M St A := fun st => (Ok a, st).

Definition bind {St A B} (m : M St A) (k : A -> M St B) : M St B :=
  fun st =>
    match m st with
    | (Ok a, st') => k a st'
    | (Panic msg, st') => (Panic msg, st')
    | (Block, st') => (Block, st')
    end.

Definition panic {St A} (msg : string) : M St A := fun st => (Panic msg, st).

#[export] Instance M_ret {St} : MRet (M St) := fun A => @ret St A.
#[export] Instance M_bind {St} : MBind (M St) := fun A B k m => @bind St A B m k.

(** [for _, x := range xs { body x }] over a slice: in index order, a panic
    in the body ends the loop. *)
Fixpoint for_each {St A} (xs : list A) (body : A -> M St unit) : M St unit :=
  match xs with
  | [] => mret tt
  | x :: xs' => body x ;; for_each xs' body
  end.

(** [defer d] registered before [body]: [d] runs when [body] returns and
    also when it panics; the panic then continues to the caller. A body
    that blocks has not reached its deferred call. *)
Definition with_defer {St A} (d : M St unit) (body : M St A) : M St A :=
  fun st =>
    match body st with
    | (Block, st') => (Block, st')
    | (r, st') =>
        match d st' with
        | (Ok _, st'') => (r, st'')
        | (Panic msg, st'') => (Panic msg, st'')
        | (Block, st'') => (Block, st'')
        end
    end.

(** ** Goroutines

    For what two goroutines do to one stream, a method is cut into steps:
    a call of the mutex, an operation on a channel, a read or an assignment
    of a field, a call of the logger, a call of the encoder. The steps of
    two goroutines alternate in any order. The call of the encoder, with
    its [Write], is taken as one step: no other method of the stream
    touches the writer. *)

(** A function body as its operations in program order. [Defer d rest]
    registers [d] and goes on with the rest of the body. *)
Inductive prog (St A : Type) : Type :=
| Return (a : A)
| Atom {X : Type} (op : M St X) (k : X -> prog St A)
| Defer (d : M St unit) (rest : prog St A).
Arguments Return {St A} a.
Arguments Atom {St A X} op k.
Arguments Defer {St A} d rest.

(** The body run from its first operation to its return with no other
    goroutine in between. *)
Fixpoint run_prog {St A} (p : prog St A) : M St A :=
  match p with
  | Return a => mret a
  | Atom op k =>
      fun st =>
        match op st with
        | (Ok x, st') => run_prog (k x) st'
        | (Panic msg, st') => (Panic msg, st')
        | (Block, st') => (Block, st')
        end
  | Defer d rest => with_defer d (run_prog rest)
  end.

(** A goroutine in a call: at an operation of the body with the deferred
    calls registered so far (the last one first), unwinding after a panic,
    or back from the call. *)
Inductive goroutine (St A : Type) : Type :=
| Running (p : prog St A) (defers : list (M St unit))
| Panicking (msg : string) (defers : list (M St unit))
| Finished (r : result A).
Arguments Running {St A} p defers.
Arguments Panicking {St A} msg defers.
Arguments Finished {St A} r.

(** One deferred call of a goroutine that returns [r] or unwinds. *)
Definition run_deferred {St A} (g : goroutine St A) (d : M St unit)
    (next : goroutine St A) (ds : list (M St unit)) (st : St) : goroutine St A * St :=
  match d st with
  | (Ok _, st') => (next, st')
  | (Panic msg, st') => (Panicking msg ds, st')
  | (Block, _) => (g, st)
  end.

(** One step of a goroutine. An operation that has to wait leaves the
    goroutine and the state as they are. *)
Definition gstep {St A} (g : goroutine St A) (st : St) : goroutine St A * St :=
  match g with
  | Running (Return a) [] => (Finished (Ok a), st)
  | Running (Return a) (d :: ds) => run_deferred g d (Running (Return a) ds) ds st
  | Running (Atom op k) ds =>
      match op st with
      | (Ok x, st') => (Running (k x) ds, st')
      | (Panic msg, st') => (Panicking msg ds, st')
      | (Block, _) => (g, st)
      end
  | Running (Defer d rest) ds => (Running rest (d :: ds), st)
  | Panicking msg [] => (Finished (Panic msg), st)
  | Panicking msg (d :: ds) => run_deferred g d (Panicking msg ds) ds st
  | Finished r => (g, st)
  end.

(** Two goroutines on one state. A schedule says whose step is next:
    [true] for the first goroutine, [false] for the second. *)
Definition interleave {St A B} (schedule : list bool)
    (s : goroutine St A * goroutine St B * St) : goroutine St A * goroutine St B * St :=
  foldl
    (fun s (first : bool) =>
       if first
       then let r := gstep s.1.1 s.2 in (r.1, s.1.2, r.2)
       else let r := gstep s.1.2 s.2 in (s.1.1, r.1, r.2))
    s schedule.

(** ** Package encoding/json, as far as [Encoder.Encode] of a struct of
    strings, integers and pointers to structs goes *)

Module json.

(** The double quote and the line feed. *)
Definition dquote : string := String "034"%char EmptyString.
Definition newline : string := String "010"%char EmptyString.

(** A JSON value as the encoder builds it from a Go value. *)
Inductive value : Type :=
| VString (s : string)
| VNumber (n : Z)
| VObject (members : list (string * value)).

(** The member of an object under a name. *)
Fixpoint assoc (name : string) (ms : list (string * value)) : option value :=
  match ms with
  | [] => None
  | (k, v) :: ms' => if decide (k = name) then Some v else assoc name ms'
  end.

Definition member (name : string) (v : value) : option value :=
  match v with
  | VObject ms => assoc name ms
  | _ => None
  end.

(** The bytes of a value. [quote] is the encoder's string literal for a Go
    string (quotes around it, escapes inside); it belongs to the Go
    library and is a parameter here. A field name of letters is written
    between quotes as it is. *)
Fixpoint render (quote : string -> string) (v : value) : string :=
  match v with
  | VString s => quote s
  | VNumber n => pretty n
  | VObject ms =>
      "{" +:+
      String.concat ","
        (map (fun kv => dquote +:+ fst kv +:+ dquote +:+ ":" +:+ render quote (snd kv)) ms)
      +:+ "}"
  end.

(** A struct field tagged [json:"name,omitempty"]: left out when it holds
    the zero value of its type. *)
Definition omitempty_string (name s : string) : list (string * value) :=
  if decide (s = "") then [] else [(name, VString s)].

Definition omitempty_int (name : string) (n : Z) : list (string * value) :=
  if decide (n = 0%Z) then [] else [(name, VNumber n)].

Definition omitempty_ptr (name : string) (p : option value) : list (string * value) :=
  match p with
  | None => []
  | Some v => [(name, v)]
  end.

(** What [Encoder.Encode] hands to the writer, in one [Write]: the value's
    bytes and a line feed. *)
Definition encode_line (quote : string -> string) (v : value) : string :=
  render quote v +:+ newline.

End json.

(** ** Package jsonmessage of Docker: the message that [Publish] encodes *)

Module jsonmessage.

(** [JSONMessage] is declared in [github.com/docker/docker/pkg/jsonmessage],
    a dependency of the repository: strings, two times and two pointers to
    structs of the package, every field tagged [omitempty]. A pointer field
    is held as the value its struct encodes to, or [None] for nil. *)
Record JSONMessage : Type := {
  Stream : string;
  Status : string;
  Progress : option json.value;
  ProgressMessage : string;
  ID : string;
  From : string;
  Time : Z;
  TimeNano : Z;
  Error : option json.value;
  ErrorMessage : string
}.

(** The struct as the encoder sees it: the fields in declaration order
    under their tag names, empty ones left out. *)
Definition to_json (m : JSONMessage) : json.value :=
  json.VObject
    (json.omitempty_string "stream" (Stream m) ++
     json.omitempty_string "status" (Status m) ++
     json.omitempty_ptr "progressDetail" (Progress m) ++
     json.omitempty_string "progress" (ProgressMessage m) ++
     json.omitempty_string "id" (ID m) ++
     json.omitempty_string "from" (From m) ++
     json.omitempty_int "time" (Time m) ++
     json.omitempty_int "timeNano" (TimeNano m) ++
     json.omitempty_ptr "errorDetail" (Error m) ++
     json.omitempty_string "error" (ErrorMessage m)).

End jsonmessage.

Module scheduler.

(** ** Data model *)

(** Modelled from the spec: [image.Image] is declared in the repository's
    package [pkg/image], which is not among the sources; the spec calls it a
    content-addressable reference to a container image. No function below
    reads it. *)
Definition Image : Type := string.

(** Addresses in a store. *)
Definition loc : Type := nat.

(** A value of type [map[string]string]: [None] is the nil map. *)
Definition gomap : Type := option loc.

(** The exposure types: the two implementations of the interface
    [ExposureType]. *)
Inductive ExposureType : Type :=
| HTTPExposure
| HTTPSExposure (Cert : string).

Definition Protocol (e : ExposureType) : string :=
  match e with
  | HTTPExposure => "http"
  | HTTPSExposure _ => "https"
  end.

Record Exposure : Type := {
  External : bool;
  Type_ : ExposureType
}.

Record Process : Type := {
  Process_Type : string;
  Process_Image : Image;
  Process_Command : list string;
  Process_Env : gomap;
  Process_Labels : gomap;
  Process_Exposure : option Exposure;
  Process_Instances : N;
  Process_MemoryLimit : N;
  Process_CPUShares : N;
  Process_Nproc : N
}.

Record App : Type := {
  App_ID : string;
  App_Release : string;
  App_Name : string;
  App_Env : gomap;
  App_Labels : gomap;
  App_Processes : list Process
}.

(** ** Go maps in a store *)

Abbreviation table := (gmap string string).
Abbreviation mheap := (gmap loc (gmap string string)).

(** The table a map value denotes when it is read: a nil map reads as the
    empty map. *)
Definition contents (h : mheap) (m : gomap) : table :=
  match m with
  | None => ∅
  | Some l => default ∅ (h !! l)
  end.

(** A map value of a running program is nil or the address of an allocated
    table. *)
Definition allocated (h : mheap) (m : gomap) : bool :=
  match m with
  | None => true
  | Some l => match h !! l with Some _ => true | None => false end
  end.

(** [make(map[string]string)]: a new, empty table at an unused address. *)
Definition make_map : M mheap gomap :=
  fun h => let l := fresh (dom h) in (Ok (Some l), <[l := ∅]> h).

(** [m[k] = v]: panics on the nil map. (A map value that is not nil is the
    address of a table; the [default] is for addresses that no program
    holds.) *)
Definition map_assign (m : gomap) (k v : string) : M mheap unit :=
  fun h =>
    match m with
    | None => (Panic "assignment to entry in nil map", h)
    | Some l => (Ok tt, <[l := <[k := v]> (default ∅ (h !! l))]> h)
    end.

(** Go leaves the order in which [range] visits a map unspecified; every
    entry is visited once. The order of a run is the parameter
    [range_order], of which the theorems assume that it enumerates the
    entries of the table: [range_order t ≡ₚ map_to_list t]. *)
Definition range_map (range_order : table -> list (string * string))
    (env : gomap) : M mheap (list (string * string)) :=
  fun h => (Ok (range_order (contents h env)), h).

(** merges the maps together, favoring keys from the right to the left. *)
Definition merge (range_order : table -> list (string * string))
    (envs : list gomap) : M mheap gomap :=
  merged ← make_map;
  for_each envs (fun env =>
    kvs ← range_map range_order env;
    for_each kvs (fun kv => map_assign merged kv.1 kv.2));;
  mret merged.

(** [p.f] through a pointer [p]: panics on nil. *)
Definition deref {St A} (p : option A) : M St A :=
  match p with
  | Some a => mret a
  | None => panic "invalid memory address or nil pointer dereference"
  end.

(** Env merges the App environment with any environment variables provided
    in the process. *)
Definition Env (range_order : table -> list (string * string))
    (app : option App) (process : option Process) : M mheap gomap :=
  a ← deref app;
  p ← deref process;
  merge range_order [App_Env a; Process_Env p].

(** Labels merges the App labels with any labels provided in the process. *)
Definition Labels (range_order : table -> list (string * string))
    (app : option App) (process : option Process) : M mheap gomap :=
  a ← deref app;
  p ← deref process;
  merge range_order [App_Labels a; Process_Labels p].

(** ** Status and the status stream *)

(** A Go [error]: [None] is nil, [Some msg] an error with that message. *)
Definition error : Type := option string.

(** [context.Context]: [Publish] only hands it to the logger. *)
Definition Context : Type := unit.

Record Status : Type := {
  (* A friendly human readable message about the status change. *)
  Message : string
}.

(** String implements the fmt.Stringer interface. *)
Definition Status_String (s : Status) : string := Message s.

(** The interface [io.Writer]: [Write(p)] takes the writer to its next
    state and returns the number of bytes written and an error. *)
Class Writer (W : Type) : Type := Write : W -> string -> W * (nat * error).

(** A [chan struct{}]: its capacity, the elements buffered in it, and
    whether it has been closed. *)
Record chan : Type := {
  chan_cap : nat;
  chan_buf : list unit;
  chan_closed : bool
}.

(** [make(chan struct{}, cap)]. *)
Definition make_chan (cap : nat) : chan :=
  {| chan_cap := cap; chan_buf := []; chan_closed := false |}.

(** A receive from the channel goes through at once: an element is
    buffered, or the channel is closed. *)
Definition chan_ready (ch : chan) : bool :=
  match chan_buf ch with
  | _ :: _ => true
  | [] => chan_closed ch
  end.

(** The fields of the stream that the methods read and assign (the mutex
    is used through [Lock] and [Unlock] only). *)
Inductive field : Type := field_done | field_err | field_w.

(** What a method does to the world outside its local variables, one event
    per operation, in program order. *)
Inductive event : Type :=
| EvLock                      (* s.Lock() acquired the mutex *)
| EvUnlock                    (* s.Unlock() *)
| EvRecv (c : loc)            (* a receive on channel c, tried or done *)
| EvClose (c : loc)           (* close(c) was executed *)
| EvLoad (f : field)          (* a plain read of s.f *)
| EvStore (f : field)         (* a plain assignment to s.f *)
| EvWrite (p : string)        (* w.Write(p) on the sink *)
| EvWarn (msg : string).      (* logger.Warn(ctx, msg) *)

(** jsonmessageStatusStream implements the StatusStream interface with
    support for writing jsonmessages to the provided io.Writer. The field
    [w] holds the state of the writer the stream was given. *)
Record jsonmessageStatusStream (W : Type) : Type := {
  Mutex : bool;               (* sync.Mutex: locked or not *)
  done : loc;                 (* chan struct{} *)
  err : error;
  w : W
}.
Arguments Mutex {W} _.
Arguments done {W} _.
Arguments err {W} _.
Arguments w {W} _.

(** The world a method runs in: the store of channels, the stream the
    method is called on, and the events so far, oldest first. *)
Record world (W : Type) : Type := {
  chans : gmap loc chan;
  self : jsonmessageStatusStream W;
  trace : list event
}.
Arguments chans {W} _.
Arguments self {W} _.
Arguments trace {W} _.

Definition set_Mutex {W} (b : bool) (s : jsonmessageStatusStream W) :=
  {| Mutex := b; done := done s; err := err s; w := w s |}.
Definition set_err {W} (e : error) (s : jsonmessageStatusStream W) :=
  {| Mutex := Mutex s; done := done s; err := e; w := w s |}.
Definition set_w {W} (x : W) (s : jsonmessageStatusStream W) :=
  {| Mutex := Mutex s; done := done s; err := err s; w := x |}.

Definition set_chans {W} (cs : gmap loc chan) (st : world W) : world W :=
  {| chans := cs; self := self st; trace := trace st |}.
Definition set_self {W} (s : jsonmessageStatusStream W) (st : world W) : world W :=
  {| chans := chans st; self := s; trace := trace st |}.
Definition log {W} (evs : list event) (st : world W) : world W :=
  {| chans := chans st; self := self st; trace := trace st ++ evs |}.

(** *** The operations the methods are made of *)

(** [s.Lock()]: waits while the mutex is held. *)
Definition Lock {W} : M (world W) unit :=
  fun st =>
    if Mutex (self st) then (Block, st)
    else (Ok tt, log [EvLock] (set_self (set_Mutex true (self st)) st)).

(** [s.Unlock()]: a run-time error when the mutex is not held. *)
Definition Unlock {W} : M (world W) unit :=
  fun st =>
    if Mutex (self st)
    then (Ok tt, log [EvUnlock] (set_self (set_Mutex false (self st)) st))
    else (Panic "sync: unlock of unlocked mutex", st).

Definition load_done {W} : M (world W) loc :=
  fun st => (Ok (done (self st)), log [EvLoad field_done] st).

Definition load_err {W} : M (world W) error :=
  fun st => (Ok (err (self st)), log [EvLoad field_err] st).

Definition store_err {W} (e : error) : M (world W) unit :=
  fun st => (Ok tt, log [EvStore field_err] (set_self (set_err e (self st)) st)).

(** [close(c)]: panics on a channel that is closed already. *)
Definition chan_close {W} (c : loc) : M (world W) unit :=
  fun st =>
    match chans st !! c with
    | None => (Panic "close of nil channel", log [EvClose c] st)
    | Some ch =>
        if chan_closed ch
        then (Panic "close of closed channel", log [EvClose c] st)
        else (Ok tt,
              log [EvClose c]
                (set_chans
                   (<[c := {| chan_cap := chan_cap ch; chan_buf := chan_buf ch;
                              chan_closed := true |}]> (chans st)) st))
    end.

(** What a receive leaves in the channel: a buffered element is taken, a
    closed and empty channel stays as it is. *)
Definition chan_after_recv (ch : chan) : chan :=
  {| chan_cap := chan_cap ch; chan_buf := tail (chan_buf ch);
     chan_closed := chan_closed ch |}.

(** [select { case <-c: ...; default: }]: [true] when the receive case was
    taken, [false] for the default case. *)
Definition try_recv {W} (c : loc) : M (world W) bool :=
  fun st =>
    match chans st !! c with
    | None => (Ok false, log [EvRecv c] st)
    | Some ch =>
        if chan_ready ch
        then (Ok true,
              log [EvRecv c] (set_chans (<[c := chan_after_recv ch]> (chans st)) st))
        else (Ok false, log [EvRecv c] st)
    end.

(** [<-c]: goes through when the channel is ready and waits otherwise. *)
Definition chan_recv {W} (c : loc) : M (world W) unit :=
  fun st =>
    match chans st !! c with
    | None => (Block, st)
    | Some ch =>
        if chan_ready ch
        then (Ok tt,
              log [EvRecv c] (set_chans (<[c := chan_after_recv ch]> (chans st)) st))
        else (Block, st)
    end.

(** [logger.Warn(ctx, msg)]. *)
Definition Warn {W} (ctx : Context) (msg : string) : M (world W) unit :=
  fun st => (Ok tt, log [EvWarn msg] st).

(** [json.NewEncoder(s.w).Encode(v)] for a [JSONMessage]: reads the field
    [w], encodes the message and a line feed, hands the bytes to the writer
    in one [Write] and returns that call's error. *)
Definition Encode {W} `{!Writer W} (quote : string -> string)
    (v : jsonmessage.JSONMessage) : M (world W) error :=
  fun st =>
    let p := json.encode_line quote (jsonmessage.to_json v) in
    let r := Write (w (self st)) p in
    (Ok r.2.2, log [EvLoad field_w; EvWrite p] (set_self (set_w r.1 (self st)) st)).

(** *** The stream *)

(** NewJSONMessageStream returns a new instance of the default status
    stream: the struct with the writer and a new channel of capacity 1, in
    a world that holds the channels [cs] made before. *)
Definition NewJSONMessageStream {W} (sink : W) (cs : gmap loc chan) : world W :=
  let c := fresh (dom cs) in
  {| chans := <[c := make_chan 1]> cs;
     self := {| Mutex := false; done := c; err := None; w := sink |};
     trace := [] |}.

(** The message [Publish] encodes: only [Status] is set. *)
Definition status_message (status : Status) : jsonmessage.JSONMessage :=
  {| jsonmessage.Stream := "";
     jsonmessage.Status := Message status;
     jsonmessage.Progress := None;
     jsonmessage.ProgressMessage := "";
     jsonmessage.ID := "";
     jsonmessage.From := "";
     jsonmessage.Time := 0;
     jsonmessage.TimeNano := 0;
     jsonmessage.Error := None;
     jsonmessage.ErrorMessage := "" |}.

(** The methods are given operation by operation, in program order; a
    call that no other goroutine interrupts is [run_prog] of the body. *)

Definition Publish_prog {W} `{!Writer W} (quote : string -> string)
    (ctx : Context) (status : Status) : prog (world W) error :=
  Atom load_done (fun c =>
  Atom (try_recv c) (fun finalized : bool =>
  if finalized then
    Atom (Warn ctx "Publish called on a finalized stream") (fun _ =>
    Return None)
  else
    Atom (Encode quote (status_message status)) (fun e =>
    Return e))).

Definition Publish {W} `{!Writer W} (quote : string -> string)
    (ctx : Context) (status : Status) : M (world W) error :=
  run_prog (Publish_prog quote ctx status).

Definition Done_prog {W} (e : error) : prog (world W) unit :=
  Atom Lock (fun _ =>
  Defer Unlock (
  Atom load_done (fun c =>
  Atom (chan_close c) (fun _ =>
  Atom (store_err e) (fun _ =>
  Return tt))))).

Definition Done {W} (e : error) : M (world W) unit :=
  run_prog (Done_prog e).

Definition Err_prog {W} : prog (world W) error :=
  Atom load_err (fun e => Return e).

Definition Err {W} : M (world W) error := run_prog Err_prog.

Definition Wait_prog {W} : prog (world W) loc :=
  Atom load_done (fun c => Return c).

Definition Wait {W} : M (world W) loc := run_prog Wait_prog.

(** *** Callers *)

(** A goroutine waiting for the end of the stream: [<-s.Wait()]. *)
Definition await {W} : M (world W) unit :=
  c ← Wait;
  chan_recv c.

(** A consumer, as the interface tells it: wait on [Wait()], then call
    [Err()]. *)
Definition consumer_prog {W} : prog (world W) error :=
  Atom load_done (fun c =>
  Atom (chan_recv c) (fun _ =>
  Atom load_err (fun e =>
  Return e))).

(** The calls a program makes on a stream. *)
Inductive call : Type :=
| CallPublish (ctx : Context) (status : Status)
| CallDone (e : error)
| CallErr
| CallWait
| CallAwait.

(** The world after a call, whatever the call returned: a caller that
    panicked or waits does not stop the others. *)
Definition exec {W} `{!Writer W} (quote : string -> string) (c : call)
    (st : world W) : world W :=
  match c with
  | CallPublish ctx status => (Publish quote ctx status st).2
  | CallDone e => (Done e st).2
  | CallErr => (Err st).2
  | CallWait => (Wait st).2
  | CallAwait => (await st).2
  end.

(** The world after a history of calls, the first call first. *)
Definition run {W} `{!Writer W} (quote : string -> string) (cs : list call)
    (st : world W) : world W :=
  foldl (fun st c => exec quote c st) st cs.

Definition is_Done (c : call) : bool :=
  match c with
  | CallDone _ => true
  | _ => false
  end.

(** [Done] has been called in the history. *)
Definition called_Done (cs : list call) : bool := existsb is_Done cs.

(** The statuses published in a history, in call order. *)
Definition published (cs : list call) : list Status :=
  omap (fun c => match c with CallPublish _ status => Some status | _ => None end) cs.

(** The byte slices the sink was handed, in order. *)
Definition writes (tr : list event) : list string :=
  omap (fun ev => match ev with EvWrite p => Some p | _ => None end) tr.

(** The warnings logged, in order. *)
Definition warnings (tr : list event) : list string :=
  omap (fun ev => match ev with EvWarn msg => Some msg | _ => None end) tr.

(** The record of a status on the wire. *)
Definition record (quote : string -> string) (status : Status) : string :=
  json.encode_line quote (jsonmessage.to_json (status_message status)).

(** The handle [c] is ready in the world: a receive on it goes through. *)
Definition ready {W} (st : world W) (c : loc) : bool :=
  match chans st !! c with
  | Some ch => chan_ready ch
  | None => false
  end.

(** The channel [c] exists and has not been closed. *)
Definition chan_open {W} (st : world W) (c : loc) : bool :=
  match chans st !! c with
  | Some ch => negb (chan_closed ch)
  | None => false
  end.

#[export] Instance field_eq_dec : EqDecision field.
Proof. solve_decision. Defined.

(** The plain memory access an event is, if it is one: the field, and
    whether it is an assignment. Operations on channels and on the mutex
    synchronise; they are no plain accesses. *)
Definition plain_access (ev : event) : option (field * bool) :=
  match ev with
  | EvLoad f => Some (f, false)
  | EvStore f => Some (f, true)
  | _ => None
  end.

(** Two plain accesses conflict when they are to the same field and one of
    them is an assignment. *)
Definition conflict (a b : event) : bool :=
  match plain_access a, plain_access b with
  | Some (f, wa), Some (g, wb) => bool_decide (f = g) && (wa || wb)
  | _, _ => false
  end.

(** The events of two goroutines race when a plain access of the one
    conflicts with a plain access of the other; nothing is assumed about
    the order in which the goroutines run. *)
Definition races (ta tb : list event) : bool :=
  existsb (fun a => existsb (conflict a) tb) ta.

(** The events a computation adds when it runs in [st]. *)
Definition events_of {W A} (m : M (world W) A) (st : world W) : list event :=
  drop (length (trace st)) (trace (m st).2).

(** *** Writers *)

(** A [bytes.Buffer]: appends and never fails. *)
#[export] Instance buffer_Writer : Writer string :=
  fun buf p => (buf +:+ p, (String.length p, None)).

(** A writer whose connection is gone: takes nothing and fails. *)
Inductive broken : Type := Broken.
#[export] Instance broken_Writer : Writer broken :=
  fun b p => (b, (0, Some "write: broken pipe")).

(** The string literal of a string in which nothing needs an escape. *)
Definition quote_plain (s : string) : string := json.dquote +:+ s +:+ json.dquote.

(** * Definitions for the statements and the proofs *)

(** ** merge *)

(** The table built by assigning the visited entries one after the other. *)
Definition assign_all (kvs : list (string * string)) (t : table) : table :=
  foldl (fun acc kv => <[kv.1 := kv.2]> acc) t kvs.

(** What [merge] leaves in the merged table: each map laid over the ones
    before it. *)
Definition merged_table (h : mheap) (envs : list gomap) : table :=
  foldl (fun acc env => contents h env ∪ acc) ∅ envs.

(** The right-biased union of two tables: the keys of both, the value of
    [p] where [p] has the key, the value of [a] elsewhere. *)
Definition right_biased_union (a p r : table) : Prop :=
  dom r = dom a ∪ dom p /\
  (forall k v, p !! k = Some v -> r !! k = Some v) /\
  (forall k, p !! k = None -> r !! k = a !! k).

(** A store with an app-level table at address 0 and a process-level table
    at address 1 that share the key PORT. *)
Definition example_heap : mheap :=
  {[ 0 := {[ "PORT" := "80"; "RACK_ENV" := "production" ]};
     1 := {[ "PORT" := "8080"; "WORKERS" := "4" ]} ]}.

(** ** The stream as a state machine *)

(** What a stream made by [NewJSONMessageStream] can differ in from one
    moment to the next: whether its channel is closed, the recorded error,
    the writer, and the trace. *)
Record shape (W : Type) : Type := {
  sh_closed : bool;
  sh_err : error;
  sh_w : W;
  sh_trace : list event
}.
Arguments sh_closed {W} _.
Arguments sh_err {W} _.
Arguments sh_w {W} _.
Arguments sh_trace {W} _.

(** The world of that shape for the stream whose channel is [d] among the
    other channels [cs]. The mutex is free between two calls, the channel
    has capacity 1 and nothing is ever sent on it. *)
Definition world_of {W} (cs : gmap loc chan) (d : loc) (a : shape W) : world W :=
  {| chans := <[d := {| chan_cap := 1; chan_buf := []; chan_closed := sh_closed a |}]> cs;
     self := {| Mutex := false; done := d; err := sh_err a; w := sh_w a |};
     trace := sh_trace a |}.

(** The state machine of the stream: Open, then Closed for good. *)
Definition step {W} `{!Writer W} (quote : string -> string) (d : loc)
    (c : call) (a : shape W) : shape W :=
  match c with
  | CallPublish ctx status =>
      if sh_closed a then
        {| sh_closed := true; sh_err := sh_err a; sh_w := sh_w a;
           sh_trace := sh_trace a ++
             [EvLoad field_done; EvRecv d;
              EvWarn "Publish called on a finalized stream"] |}
      else
        {| sh_closed := false; sh_err := sh_err a;
           sh_w := (Write (sh_w a) (record quote status)).1;
           sh_trace := sh_trace a ++
             [EvLoad field_done; EvRecv d; EvLoad field_w;
              EvWrite (record quote status)] |}
  | CallDone e =>
      if sh_closed a then
        {| sh_closed := true; sh_err := sh_err a; sh_w := sh_w a;
           sh_trace := sh_trace a ++
             [EvLock; EvLoad field_done; EvClose d; EvUnlock] |}
      else
        {| sh_closed := true; sh_err := e; sh_w := sh_w a;
           sh_trace := sh_trace a ++
             [EvLock; EvLoad field_done; EvClose d; EvStore field_err; EvUnlock] |}
  | CallErr =>
      {| sh_closed := sh_closed a; sh_err := sh_err a; sh_w := sh_w a;
         sh_trace := sh_trace a ++ [EvLoad field_err] |}
  | CallWait =>
      {| sh_closed := sh_closed a; sh_err := sh_err a; sh_w := sh_w a;
         sh_trace := sh_trace a ++ [EvLoad field_done] |}
  | CallAwait =>
      {| sh_closed := sh_closed a; sh_err := sh_err a; sh_w := sh_w a;
         sh_trace := sh_trace a ++
           (if sh_closed a then [EvLoad field_done; EvRecv d] else [EvLoad field_done]) |}
  end.

Definition steps {W} `{!Writer W} (quote : string -> string) (d : loc)
    (cs : list call) (a : shape W) : shape W :=
  foldl (fun a c => step quote d c a) a cs.

Definition creating_web : Status := {| Message := "creating web" |}.
Definition web_running : Status := {| Message := "web: 2/2 running" |}.
Definition no_message : Status := {| Message := "" |}.

(** A stream over an empty buffer, in a world with no other channel. *)
Definition buffer_stream : world string := NewJSONMessageStream "" ∅.

(** A stream over a writer that fails. *)
Definition broken_stream : world broken := NewJSONMessageStream Broken ∅.

(** ** Goroutines *)

(** [n] steps of one goroutine. *)
Fixpoint solo {St A} (n : nat) (g : goroutine St A) (st : St) : goroutine St A * St :=
  match n with
  | 0 => (g, st)
  | S n' => let r := gstep g st in solo n' r.1 r.2
  end.

(** The deferred calls of a goroutine that leaves its body with [r], the
    last one registered first. *)
Fixpoint unwind {St A} (ds : list (M St unit)) (r : result A) : M St A :=
  fun st =>
    match ds with
    | [] => (r, st)
    | d :: ds' =>
        match d st with
        | (Ok _, st') => unwind ds' r st'
        | (Panic msg, st') => unwind ds' (Panic msg) st'
        | (Block, st') => (Block, st')
        end
    end.

(** Where the goroutine in [Publish] is: at the read of [done], at the
    select, at the warning, at the encoder, at its return (having written
    or not), or back. *)
Inductive pphase : Type :=
| PStart | PLoaded | PWarn | PEncode | PReturn (wrote : bool) | PFinished (wrote : bool).

(** Where the goroutine in [Done] is: at [Lock], at the [defer], at the
    read of [done], at [close], at the assignment of [err], at its return
    with [Unlock] still to run, at its return, or back. *)
Inductive dphase : Type :=
| DStart | DLocked | DDeferred | DLoaded | DClosed | DStored | DUnlocked | DFinished.

Definition pnext (closed : bool) (ph : pphase) : pphase :=
  match ph with
  | PStart => PLoaded
  | PLoaded => if closed then PWarn else PEncode
  | PWarn => PReturn false
  | PEncode => PReturn true
  | PReturn b => PFinished b
  | PFinished b => PFinished b
  end.

Definition dnext (ph : dphase) : dphase :=
  match ph with
  | DStart => DLocked
  | DLocked => DDeferred
  | DDeferred => DLoaded
  | DLoaded => DClosed
  | DClosed => DStored
  | DStored => DUnlocked
  | DUnlocked => DFinished
  | DFinished => DFinished
  end.

Definition locked_at (ph : dphase) : bool :=
  match ph with
  | DLocked | DDeferred | DLoaded | DClosed | DStored => true
  | _ => false
  end.

Definition closed_at (ph : dphase) : bool :=
  match ph with
  | DClosed | DStored | DUnlocked | DFinished => true
  | _ => false
  end.

Definition stored_at (ph : dphase) : bool :=
  match ph with
  | DStored | DUnlocked | DFinished => true
  | _ => false
  end.

Definition wrote_of (ph : pphase) : bool :=
  match ph with
  | PReturn b | PFinished b => b
  | _ => false
  end.

(** [Publish] has found the channel closed. *)
Definition saw_closed (ph : pphase) : bool :=
  match ph with
  | PWarn | PReturn false | PFinished false => true
  | _ => false
  end.

Definition warned (ph : pphase) : bool :=
  match ph with
  | PReturn false | PFinished false => true
  | _ => false
  end.

Definition pevents (d : loc) (rec : string) (ph : pphase) : list event :=
  match ph with
  | PStart => [EvLoad field_done]
  | PLoaded => [EvRecv d]
  | PWarn => [EvWarn "Publish called on a finalized stream"]
  | PEncode => [EvLoad field_w; EvWrite rec]
  | _ => []
  end.

Definition devents (d : loc) (ph : dphase) : list event :=
  match ph with
  | DStart => [EvLock]
  | DDeferred => [EvLoad field_done]
  | DLoaded => [EvClose d]
  | DClosed => [EvStore field_err]
  | DStored => [EvUnlock]
  | _ => []
  end.

Section Phases.

Context {W : Type} `{!Writer W}.
Variable quote : string -> string.
Variables (ctx : Context) (status : Status) (e e0 : error).
Variables (d : loc) (cs : gmap loc chan) (w0 : W).

Definition pub_result (wrote : bool) : error :=
  if wrote then (Write w0 (record quote status)).2.2 else None.

Definition pub_at (ph : pphase) : goroutine (world W) error :=
  match ph with
  | PStart => Running (Publish_prog quote ctx status) []
  | PLoaded =>
      Running
        (Atom (try_recv d) (fun finalized : bool =>
         if finalized then
           Atom (Warn ctx "Publish called on a finalized stream") (fun _ =>
           Return None)
         else
           Atom (Encode quote (status_message status)) (fun e => Return e))) []
  | PWarn =>
      Running
        (Atom (Warn ctx "Publish called on a finalized stream") (fun _ =>
         Return None)) []
  | PEncode =>
      Running (Atom (Encode quote (status_message status)) (fun e => Return e)) []
  | PReturn b => Running (Return (pub_result b)) []
  | PFinished b => Finished (Ok (pub_result b))
  end.

Definition done_at (ph : dphase) : goroutine (world W) unit :=
  match ph with
  | DStart => Running (Done_prog e) []
  | DLocked =>
      Running
        (Defer Unlock
           (Atom load_done (fun c =>
            Atom (chan_close c) (fun _ =>
            Atom (store_err e) (fun _ => Return tt))))) []
  | DDeferred =>
      Running
        (Atom load_done (fun c =>
         Atom (chan_close c) (fun _ =>
         Atom (store_err e) (fun _ => Return tt)))) [Unlock]
  | DLoaded =>
      Running
        (Atom (chan_close d) (fun _ =>
         Atom (store_err e) (fun _ => Return tt))) [Unlock]
  | DClosed => Running (Atom (store_err e) (fun _ => Return tt)) [Unlock]
  | DStored => Running (Return tt) [Unlock]
  | DUnlocked => Running (Return tt) []
  | DFinished => Finished (Ok tt)
  end.

(** The world when [Done] is at [dph] and [Publish] has written or not. *)
Definition world_at (dph : dphase) (wrote : bool) (tr : list event) : world W :=
  {| chans :=
       <[d := {| chan_cap := 1; chan_buf := []; chan_closed := closed_at dph |}]> cs;
     self :=
       {| Mutex := locked_at dph; done := d;
          err := if stored_at dph then e else e0;
          w := if wrote then (Write w0 (record quote status)).1 else w0 |};
     trace := tr |}.

Definition config (c : pphase * dphase * list event)
    : goroutine (world W) error * goroutine (world W) unit * world W :=
  (pub_at c.1.1, done_at c.1.2, world_at c.1.2 (wrote_of c.1.1) c.2).

Definition anext (first : bool) (c : pphase * dphase * list event)
    : pphase * dphase * list event :=
  if first
  then (pnext (closed_at c.1.2) c.1.1, c.1.2,
        c.2 ++ pevents d (record quote status) c.1.1)
  else (c.1.1, dnext c.1.2, c.2 ++ devents d c.1.2).

(** What holds of the phases and the trace all along. *)
Definition ainv (tr0 : list event) (c : pphase * dphase * list event) : Prop :=
  (saw_closed c.1.1 = true -> closed_at c.1.2 = true) /\
  writes c.2 = writes tr0 ++ (if wrote_of c.1.1 then [record quote status] else []) /\
  warnings c.2
  = warnings tr0 ++
    (if warned c.1.1 then ["Publish called on a finalized stream"] else []).

End Phases.

(** An app and a process whose maps are the two tables of the example
    store; their labels are nil maps. *)
Definition example_app : App :=
  {| App_ID := "1"; App_Release := "v1"; App_Name := "acme";
     App_Env := Some 0; App_Labels := None; App_Processes := [] |}.

Definition example_process : Process :=
  {| Process_Type := "web"; Process_Image := "acme:latest";
     Process_Command := ["./bin/web"];
     Process_Env := Some 1; Process_Labels := None;
     Process_Exposure := None; Process_Instances := 2;
     Process_MemoryLimit := 0; Process_CPUShares := 0; Process_Nproc := 0 |}.

(** ** Histories cut at the first [Done] *)

(** The calls made before the first [Done]. *)
Fixpoint until_Done (calls : list call) : list call :=
  match calls with
  | [] => []
  | c :: calls' => if is_Done c then [] else c :: until_Done calls'
  end.

(** The calls made after the first [Done]. *)
Fixpoint after_Done (calls : list call) : list call :=
  match calls with
  | [] => []
  | c :: calls' => if is_Done c then calls' else after_Done calls'
  end.

(** The error given to the first [Done], nil when there is none. *)
Fixpoint first_Done (calls : list call) : error :=
  match calls with
  | [] => None
  | CallDone e :: _ => e
  | _ :: calls' => first_Done calls'
  end.

(** ** Two streams in one program *)

(** Two streams that share the store of channels, and the trace of the
    program. *)
Record two_streams (W : Type) : Type := {
  ts_chans : gmap loc chan;
  ts_first : jsonmessageStatusStream W;
  ts_second : jsonmessageStatusStream W;
  ts_trace : list event
}.
Arguments ts_chans {W} _.
Arguments ts_first {W} _.
Arguments ts_second {W} _.
Arguments ts_trace {W} _.

(** Two calls of [NewJSONMessageStream], one after the other. *)
Definition new_two_streams {W} (sink1 sink2 : W) (cs : gmap loc chan) : two_streams W :=
  let st1 := NewJSONMessageStream sink1 cs in
  let st2 := NewJSONMessageStream sink2 (chans st1) in
  {| ts_chans := chans st2; ts_first := self st1; ts_second := self st2;
     ts_trace := [] |}.

(** A call on the first stream ([true]) or on the second ([false]). *)
Definition exec_on {W} `{!Writer W} (quote : string -> string)
    (t : two_streams W) (c : bool * call) : two_streams W :=
  let st := exec quote c.2
    {| chans := ts_chans t;
       self := if c.1 then ts_first t else ts_second t;
       trace := ts_trace t |} in
  {| ts_chans := chans st;
     ts_first := if c.1 then self st else ts_first t;
     ts_second := if c.1 then ts_second t else self st;
     ts_trace := trace st |}.

Definition run_on {W} `{!Writer W} (quote : string -> string)
    (calls : list (bool * call)) (t : two_streams W) : two_streams W :=
  foldl (exec_on quote) t calls.

(** The calls of a mixed history that were made on one of the streams. *)
Definition calls_on (first : bool) (calls : list (bool * call)) : list call :=
  omap (fun c => if Bool.eqb c.1 first then Some c.2 else None) calls.

(** A shape without its trace, and a shape under another trace. *)
Definition core {W} (a : shape W) : bool * error * W :=
  (sh_closed a, sh_err a, sh_w a).

Definition retrace {W} (tr : list event) (a : shape W) : shape W :=
  {| sh_closed := sh_closed a; sh_err := sh_err a; sh_w := sh_w a; sh_trace := tr |}.

(** The two streams with channels [d1] and [d2], of shapes [a1] and [a2],
    under the trace [tr] of the program. *)
Definition pair_of {W} (cs : gmap loc chan) (d1 d2 : loc) (a1 a2 : shape W)
    (tr : list event) : two_streams W :=
  {| ts_chans :=
       <[d2 := {| chan_cap := 1; chan_buf := []; chan_closed := sh_closed a2 |}]>
         (<[d1 := {| chan_cap := 1; chan_buf := []; chan_closed := sh_closed a1 |}]> cs);
     ts_first := {| Mutex := false; done := d1; err := sh_err a1; w := sh_w a1 |};
     ts_second := {| Mutex := false; done := d2; err := sh_err a2; w := sh_w a2 |};
     ts_trace := tr |}.

(** ** Two goroutines in [Done] *)

(** Where a goroutine in [Done] is when another [Done] may close the
    channel first: in the body as before, unwinding after the panic of
    [close] with [Unlock] still to run, unwinding with nothing left to run,
    or back with the panic. *)
Inductive qphase : Type :=
| QAt (ph : dphase) | QPanicking | QPanicked | QFailed.

Definition qholds (ph : qphase) : bool :=
  match ph with
  | QAt ph' => locked_at ph'
  | QPanicking => true
  | _ => false
  end.

Definition qclosed (ph : qphase) : bool :=
  match ph with
  | QAt ph' => closed_at ph'
  | _ => false
  end.

Definition qstored (ph : qphase) : bool :=
  match ph with
  | QAt ph' => stored_at ph'
  | _ => false
  end.

Definition qfailing (ph : qphase) : bool :=
  match ph with
  | QAt _ => false
  | _ => true
  end.

(** The next phase, given whether the mutex is held and whether the
    channel is closed. *)
Definition qnext (locked closed : bool) (ph : qphase) : qphase :=
  match ph with
  | QAt DStart => if locked then QAt DStart else QAt DLocked
  | QAt DLoaded => if closed then QPanicking else QAt DClosed
  | QAt ph' => QAt (dnext ph')
  | QPanicking => QPanicked
  | QPanicked => QFailed
  | QFailed => QFailed
  end.

Definition qevents (d : loc) (locked : bool) (ph : qphase) : list event :=
  match ph with
  | QAt DStart => if locked then [] else [EvLock]
  | QAt ph' => devents d ph'
  | QPanicking => [EvUnlock]
  | _ => []
  end.

(** What holds of the two phases all along: at most one goroutine holds
    the mutex, at most one has closed the channel, and one that panicked
    found the channel closed by the other. *)
Definition qinv (ph1 ph2 : qphase) : bool :=
  negb (qholds ph1 && qholds ph2) &&
  negb (qclosed ph1 && qclosed ph2) &&
  implb (qfailing ph1) (qclosed ph2) &&
  implb (qfailing ph2) (qclosed ph1).

Section TwoDone.

Context {W : Type}.
Variables (e1 e2 e0 : error) (d : loc) (cs : gmap loc chan) (w0 : W).

Definition qdone_at (e : error) (ph : qphase) : goroutine (world W) unit :=
  match ph with
  | QAt ph' => done_at e d ph'
  | QPanicking => Panicking "close of closed channel" [Unlock]
  | QPanicked => Panicking "close of closed channel" []
  | QFailed => Finished (Panic "close of closed channel")
  end.

(** The world when the two goroutines are at [ph1] and [ph2]. *)
Definition qworld_at (ph1 ph2 : qphase) (tr : list event) : world W :=
  {| chans :=
       <[d := {| chan_cap := 1; chan_buf := [];
                 chan_closed := qclosed ph1 || qclosed ph2 |}]> cs;
     self :=
       {| Mutex := qholds ph1 || qholds ph2; done := d;
          err := if qstored ph1 then e1 else if qstored ph2 then e2 else e0;
          w := w0 |};
     trace := tr |}.

Definition qconfig (c : qphase * qphase * list event)
    : goroutine (world W) unit * goroutine (world W) unit * world W :=
  (qdone_at e1 c.1.1, qdone_at e2 c.1.2, qworld_at c.1.1 c.1.2 c.2).

Definition qanext (first : bool) (c : qphase * qphase * list event)
    : qphase * qphase * list event :=
  if first
  then (qnext (qholds c.1.2) (qclosed c.1.2) c.1.1, c.1.2,
        c.2 ++ qevents d (qholds c.1.2) c.1.1)
  else (c.1.1, qnext (qholds c.1.1) (qclosed c.1.1) c.1.2,
        c.2 ++ qevents d (qholds c.1.1) c.1.2).

End TwoDone.

(** ** A consumer beside [Done] *)

(** Where the consumer is: at the read of [done], at the receive, at the
    read of [err], at its return, or back. [seen] tells whether [Done] had
    assigned [err] when the consumer read it. *)
Inductive cphase : Type :=
| CStart | CLoaded | CReceived | CReturn (seen : bool) | CFinished (seen : bool).

Definition cnext (closed stored : bool) (ph : cphase) : cphase :=
  match ph with
  | CStart => CLoaded
  | CLoaded => if closed then CReceived else CLoaded
  | CReceived => CReturn stored
  | CReturn b => CFinished b
  | CFinished b => CFinished b
  end.

Definition cevents (d : loc) (closed : bool) (ph : cphase) : list event :=
  match ph with
  | CStart => [EvLoad field_done]
  | CLoaded => if closed then [EvRecv d] else []
  | CReceived => [EvLoad field_err]
  | _ => []
  end.

(** The receive of the consumer has gone through. *)
Definition released (ph : cphase) : bool :=
  match ph with
  | CStart | CLoaded => false
  | _ => true
  end.

(** The consumer has read [err]. *)
Definition has_read (ph : cphase) : bool :=
  match ph with
  | CReturn _ | CFinished _ => true
  | _ => false
  end.

Definition seen_of (ph : cphase) : bool :=
  match ph with
  | CReturn b | CFinished b => b
  | _ => false
  end.

Section Consumer.

Context {W : Type}.
Variables (e e0 : error) (d : loc) (cs : gmap loc chan) (w0 : W).

Definition consumer_at (ph : cphase) : goroutine (world W) error :=
  match ph with
  | CStart => Running consumer_prog []
  | CLoaded =>
      Running (Atom (chan_recv d) (fun _ => Atom load_err (fun e => Return e))) []
  | CReceived => Running (Atom load_err (fun e => Return e)) []
  | CReturn b => Running (Return (if b then e else e0)) []
  | CFinished b => Finished (Ok (if b then e else e0))
  end.

(** The world when [Done] is at [dph]. *)
Definition cworld_at (dph : dphase) (tr : list event) : world W :=
  {| chans :=
       <[d := {| chan_cap := 1; chan_buf := []; chan_closed := closed_at dph |}]> cs;
     self :=
       {| Mutex := locked_at dph; done := d;
          err := if stored_at dph then e else e0; w := w0 |};
     trace := tr |}.

Definition cconfig (c : cphase * dphase * list event)
    : goroutine (world W) error * goroutine (world W) unit * world W :=
  (consumer_at c.1.1, done_at e d c.1.2, cworld_at c.1.2 c.2).

Definition canext (first : bool) (c : cphase * dphase * list event)
    : cphase * dphase * list event :=
  if first
  then (cnext (closed_at c.1.2) (stored_at c.1.2) c.1.1, c.1.2,
        c.2 ++ cevents d (closed_at c.1.2) c.1.1)
  else (c.1.1, dnext c.1.2, c.2 ++ devents d c.1.2).

End Consumer.

(** The consumer is released only by the close, and sees the assignment
    only when it was made. *)
Definition cinv (c : cphase * dphase * list event) : bool :=
  implb (released c.1.1) (closed_at c.1.2) && implb (seen_of c.1.1) (stored_at c.1.2).

(** [Done] has assigned [err], and a consumer that has read [err] has
    seen the assignment. *)
Definition cinv_after (c : cphase * dphase * list event) : bool :=
  stored_at c.1.2 && implb (has_read c.1.1) (seen_of c.1.1).

(** * Theorems *)

(** ** merge, Env and Labels *)

Lemma for_each_assign (l : loc) (kvs : list (string * string)) (h : mheap) (t : table) :
  h !! l = Some t ->
  for_each kvs (fun kv => map_assign (Some l) kv.1 kv.2) h
  = (Ok tt, <[l := assign_all kvs t]> h).
Proof.
  revert h t. induction kvs as [|[k v] kvs IH]; intros h t Hl; simpl.
  - unfold mret, M_ret, ret. by rewrite insert_id.
  - unfold mbind, M_bind, bind. simpl. rewrite Hl. simpl.
    rewrite (IH _ (<[k:=v]> t)) by apply lookup_insert_eq.
    by rewrite insert_insert_eq.
Qed.

Lemma assign_all_list_to_map (kvs : list (string * string)) (t : table) :
  assign_all kvs t = list_to_map (reverse kvs) ∪ t.
Proof.
  revert t. induction kvs as [|[k v] kvs IH]; intros t; simpl.
  - by rewrite (left_id_L ∅ (∪)).
  - rewrite IH, reverse_cons, list_to_map_app. simpl.
    rewrite <-(assoc_L (∪)). f_equal.
    by rewrite insert_empty, <-insert_union_singleton_l.
Qed.

Lemma assign_all_range (kvs : list (string * string)) (env t : table) :
  kvs ≡ₚ map_to_list env -> assign_all kvs t = env ∪ t.
Proof.
  intros Hp. rewrite assign_all_list_to_map. f_equal.
  transitivity (list_to_map (map_to_list env) : table);
    [|apply list_to_map_to_list].
  apply list_to_map_proper.
  - rewrite reverse_Permutation, Hp. apply NoDup_fst_map_to_list.
  - by rewrite reverse_Permutation.
Qed.

Lemma allocated_contents_insert (h : mheap) (l : loc) (t : table) (env : gomap) :
  h !! l = None -> allocated h env = true ->
  contents (<[l := t]> h) env = contents h env.
Proof.
  intros Hl Ha. destruct env as [l'|]; simpl in *; [|done].
  destruct (decide (l' = l)) as [->|Hne].
  - by rewrite Hl in Ha.
  - by rewrite lookup_insert_ne.
Qed.

Lemma allocated_ne_fresh (h : mheap) (l : loc) (env : gomap) :
  h !! l = None -> allocated h env = true -> env <> Some l.
Proof. intros Hl Ha ->. simpl in Ha. by rewrite Hl in Ha. Qed.

Lemma fresh_unallocated (h : mheap) : h !! fresh (dom h) = None.
Proof. apply not_elem_of_dom, is_fresh. Qed.

Lemma union_right_biased (a p : table) : right_biased_union a p (p ∪ (a ∪ ∅)).
Proof.
  rewrite (right_id_L ∅ (∪)). split; [|split].
  - rewrite dom_union_L. apply (comm_L (∪)).
  - intros k v Hk. by apply lookup_union_Some_l.
  - intros k Hk. by apply lookup_union_r.
Qed.

Section MergeTheorems.

Variable range_order : table -> list (string * string).
Hypothesis range_order_perm : forall t, range_order t ≡ₚ map_to_list t.

Lemma merge_loop (l : loc) (envs : list gomap) (h : mheap) (acc : table) :
  h !! l = None ->
  Forall (fun env => allocated h env = true) envs ->
  for_each envs (fun env =>
    kvs ← range_map range_order env;
    for_each kvs (fun kv => map_assign (Some l) kv.1 kv.2)) (<[l := acc]> h)
  = (Ok tt, <[l := foldl (fun acc env => contents h env ∪ acc) acc envs]> h).
Proof using range_order_perm.
  intros Hl Hall. revert acc.
  induction Hall as [|env envs Ha _ IH]; intros acc; simpl; [done|].
  unfold mbind, M_bind, bind, range_map. simpl.
  rewrite (allocated_contents_insert h l acc env Hl Ha).
  rewrite (for_each_assign l _ _ acc) by apply lookup_insert_eq.
  rewrite insert_insert_eq.
  rewrite (assign_all_range _ (contents h env)) by apply range_order_perm.
  apply IH.
Qed.

Lemma merge_spec (envs : list gomap) (h : mheap) :
  Forall (fun env => allocated h env = true) envs ->
  merge range_order envs h
  = (Ok (Some (fresh (dom h))), <[fresh (dom h) := merged_table h envs]> h).
Proof using range_order_perm.
  intros Hall. unfold merge, mbind, M_bind, bind, make_map. simpl.
  by rewrite (merge_loop _ _ _ _ (fresh_unallocated h) Hall).
Qed.

(** C5. For all maps A (app level) and P (process level), nil included,
    [merge(A, P)] returns a non-nil map whose table is the right-biased
    union of the two: it has exactly the keys of A and of P, P's value for
    every key of P, and A's value for the keys only A has. [Env] and
    [Labels] return what [merge] returns on the two maps of the app and the
    process, and [merge(nil, nil)] returns a non-nil, empty map. *)
Theorem merge_right_biased_union (h : mheap) (A P : gomap) :
  allocated h A = true ->
  allocated h P = true ->
  (exists (l : loc) (h' : mheap),
      merge range_order [A; P] h = (Ok (Some l), h') /\
      right_biased_union (contents h A) (contents h P) (contents h' (Some l))) /\
  (forall app process,
      App_Env app = A -> Process_Env process = P ->
      Env range_order (Some app) (Some process) h = merge range_order [A; P] h) /\
  (forall app process,
      App_Labels app = A -> Process_Labels process = P ->
      Labels range_order (Some app) (Some process) h = merge range_order [A; P] h) /\
  (exists (l : loc) (h' : mheap),
      merge range_order [None; None] h = (Ok (Some l), h') /\
      h' !! l = Some ∅).
Proof using range_order_perm.
  intros HA HP. repeat split.
  - eexists _, _. split.
    + apply merge_spec. by repeat constructor.
    + simpl. rewrite lookup_insert_eq. simpl. apply union_right_biased.
  - by intros app process <- <-.
  - by intros app process <- <-.
  - eexists _, _. split.
    + apply merge_spec. by repeat constructor.
    + rewrite lookup_insert_eq. unfold merged_table. simpl.
      by rewrite !(left_id_L ∅ (∪)).
Qed.

(** C9. For all maps A and P, [merge(A, P)] (and so [Env] and [Labels])
    does not panic, returns a map at an address that was not allocated
    before the call, hence different from A and from P, and leaves every
    table that existed before the call, those of A and P among them, with
    the entries it had. *)
Theorem merge_fresh_and_frame (h : mheap) (A P : gomap) :
  allocated h A = true ->
  allocated h P = true ->
  exists (l : loc) (h' : mheap),
    merge range_order [A; P] h = (Ok (Some l), h') /\
    h !! l = None /\
    Some l <> A /\ Some l <> P /\
    (forall l', l' <> l -> h' !! l' = h !! l') /\
    contents h' A = contents h A /\
    contents h' P = contents h P /\
    (forall app process,
        App_Env app = A -> Process_Env process = P ->
        Env range_order (Some app) (Some process) h = (Ok (Some l), h')) /\
    (forall app process,
        App_Labels app = A -> Process_Labels process = P ->
        Labels range_order (Some app) (Some process) h = (Ok (Some l), h')).
Proof using range_order_perm.
  intros HA HP.
  assert (Hm : merge range_order [A; P] h
    = (Ok (Some (fresh (dom h))), <[fresh (dom h) := merged_table h [A; P]]> h))
    by (apply merge_spec; by repeat constructor).
  pose proof (fresh_unallocated h) as Hf.
  eexists _, _. split; [exact Hm|]. repeat split.
  - done.
  - intros Heq. by apply (allocated_ne_fresh h _ A Hf HA).
  - intros Heq. by apply (allocated_ne_fresh h _ P Hf HP).
  - intros l' Hne. by rewrite lookup_insert_ne.
  - by apply allocated_contents_insert.
  - by apply allocated_contents_insert.
  - by intros app process <- <-.
  - by intros app process <- <-.
Qed.

End MergeTheorems.

Lemma merge_right_biased_union_witness :
  (exists (l : loc) (h' : mheap),
      merge map_to_list [Some 0; Some 1] example_heap = (Ok (Some l), h') /\
      right_biased_union (contents example_heap (Some 0)) (contents example_heap (Some 1))
        (contents h' (Some l))) /\
  (forall app process,
      App_Env app = Some 0 -> Process_Env process = Some 1 ->
      Env map_to_list (Some app) (Some process) example_heap
      = merge map_to_list [Some 0; Some 1] example_heap) /\
  (forall app process,
      App_Labels app = Some 0 -> Process_Labels process = Some 1 ->
      Labels map_to_list (Some app) (Some process) example_heap
      = merge map_to_list [Some 0; Some 1] example_heap) /\
  (exists (l : loc) (h' : mheap),
      merge map_to_list [None; None] example_heap = (Ok (Some l), h') /\
      h' !! l = Some ∅).
Proof.
  apply (merge_right_biased_union map_to_list (fun t => Permutation_refl _)
           example_heap (Some 0) (Some 1)); reflexivity.
Defined.

Lemma merge_fresh_and_frame_witness :
  exists (l : loc) (h' : mheap),
    merge map_to_list [Some 0; Some 1] example_heap = (Ok (Some l), h') /\
    example_heap !! l = None /\
    Some l <> Some 0 /\ Some l <> Some 1 /\
    (forall l', l' <> l -> h' !! l' = example_heap !! l') /\
    contents h' (Some 0) = contents example_heap (Some 0) /\
    contents h' (Some 1) = contents example_heap (Some 1) /\
    (forall app process,
        App_Env app = Some 0 -> Process_Env process = Some 1 ->
        Env map_to_list (Some app) (Some process) example_heap = (Ok (Some l), h')) /\
    (forall app process,
        App_Labels app = Some 0 -> Process_Labels process = Some 1 ->
        Labels map_to_list (Some app) (Some process) example_heap = (Ok (Some l), h')).
Proof.
  apply (merge_fresh_and_frame map_to_list (fun t => Permutation_refl _)
           example_heap (Some 0) (Some 1)); reflexivity.
Defined.

(** The merged table of the example: PORT is the process's, the other keys
    are kept. *)
Example merge_example :
  (let '(r, h') := merge map_to_list [Some 0; Some 1] example_heap in
   (r, map_to_list (contents h' (Some 2))))
  = (Ok (Some 2),
     map_to_list ({[ "PORT" := "8080"; "RACK_ENV" := "production"; "WORKERS" := "4" ]} : table)).
Proof. vm_compute. reflexivity. Qed.

(** ** The status stream *)

Section Stream.

Context {W : Type} `{!Writer W}.
Variable quote : string -> string.

Implicit Types (cs : gmap loc chan) (d : loc) (a : shape W) (st : world W).

Local Ltac run_method :=
  unfold Publish, Done, Err, Wait, await, Publish_prog, Done_prog, Err_prog,
    Wait_prog, run_prog, with_defer, mbind, M_bind, bind,
    mret, M_ret, ret, load_done, load_err, store_err, try_recv, chan_recv,
    chan_close, Lock, Unlock, Warn, Encode, world_of, log, set_self, set_chans,
    set_Mutex, set_err, set_w, chan_ready, chan_after_recv, record;
  simpl;
  repeat (rewrite ?lookup_insert_eq, ?insert_insert_eq; simpl);
  rewrite <-?(assoc_L (++)); simpl.

Lemma Publish_open cs d a ctx status :
  sh_closed a = false ->
  Publish quote ctx status (world_of cs d a)
  = (Ok (Write (sh_w a) (record quote status)).2.2,
     world_of cs d (step quote d (CallPublish ctx status) a)).
Proof. intros Ha. destruct a as [b e x tr]; simpl in *; subst. by run_method. Qed.

Lemma Publish_closed cs d a ctx status :
  sh_closed a = true ->
  Publish quote ctx status (world_of cs d a)
  = (Ok None, world_of cs d (step quote d (CallPublish ctx status) a)).
Proof. intros Ha. destruct a as [b e x tr]; simpl in *; subst. by run_method. Qed.

Lemma Done_open cs d a e :
  sh_closed a = false ->
  Done e (world_of cs d a) = (Ok tt, world_of cs d (step quote d (CallDone e) a)).
Proof. intros Ha. destruct a as [b e' x tr]; simpl in *; subst. by run_method. Qed.

Lemma Done_closed cs d a e :
  sh_closed a = true ->
  Done e (world_of cs d a)
  = (Panic "close of closed channel", world_of cs d (step quote d (CallDone e) a)).
Proof. intros Ha. destruct a as [b e' x tr]; simpl in *; subst. by run_method. Qed.

Lemma Err_shape cs d a :
  Err (world_of cs d a) = (Ok (sh_err a), world_of cs d (step quote d CallErr a)).
Proof. by destruct a. Qed.

Lemma Wait_shape cs d a :
  Wait (world_of cs d a) = (Ok d, world_of cs d (step quote d CallWait a)).
Proof. by destruct a. Qed.

Lemma await_shape cs d a :
  await (world_of cs d a)
  = (if sh_closed a then Ok tt else Block,
     world_of cs d (step quote d CallAwait a)).
Proof. destruct a as [[] e x tr]; by run_method. Qed.

Lemma exec_shape cs d a c :
  exec quote c (world_of cs d a) = world_of cs d (step quote d c a).
Proof.
  destruct c as [ctx status|e| | |]; unfold exec.
  - destruct (sh_closed a) eqn:Ha.
    + by rewrite Publish_closed.
    + by rewrite Publish_open.
  - destruct (sh_closed a) eqn:Ha.
    + by rewrite Done_closed.
    + by rewrite Done_open.
  - by rewrite Err_shape.
  - by rewrite Wait_shape.
  - by rewrite await_shape.
Qed.

Lemma run_shape cs d a calls :
  run quote calls (world_of cs d a) = world_of cs d (steps quote d calls a).
Proof.
  revert a. induction calls as [|c calls IH]; intros a; [done|].
  unfold run, steps in *. simpl. by rewrite exec_shape, IH.
Qed.

Lemma New_shape (sink : W) cs :
  NewJSONMessageStream sink cs
  = world_of cs (fresh (dom cs))
      {| sh_closed := false; sh_err := None; sh_w := sink; sh_trace := [] |}.
Proof. done. Qed.

Lemma ready_shape cs d a : ready (world_of cs d a) d = sh_closed a.
Proof. unfold ready, world_of. simpl. by rewrite lookup_insert_eq. Qed.

Lemma steps_app d calls1 calls2 a :
  steps quote d (calls1 ++ calls2) a = steps quote d calls2 (steps quote d calls1 a).
Proof. apply foldl_app. Qed.

Lemma writes_app (t1 t2 : list event) : writes (t1 ++ t2) = writes t1 ++ writes t2.
Proof. apply omap_app. Qed.

Lemma warnings_app (t1 t2 : list event) :
  warnings (t1 ++ t2) = warnings t1 ++ warnings t2.
Proof. apply omap_app. Qed.

(** Closed is for good: no call reopens the stream, changes the recorded
    error, or reaches the writer. *)
Lemma steps_closed d calls a :
  sh_closed a = true ->
  sh_closed (steps quote d calls a) = true /\
  sh_err (steps quote d calls a) = sh_err a /\
  sh_w (steps quote d calls a) = sh_w a /\
  writes (sh_trace (steps quote d calls a)) = writes (sh_trace a).
Proof.
  revert a. induction calls as [|c calls IH]; intros a Ha; [done|].
  change (steps quote d (c :: calls) a) with (steps quote d calls (step quote d c a)).
  destruct (IH (step quote d c a)) as (H1 & H2 & H3 & H4).
  { destruct c; simpl; by rewrite ?Ha. }
  rewrite H1, H2, H3, H4.
  destruct c; simpl; rewrite ?Ha; simpl; rewrite ?writes_app, ?Ha; simpl;
    by rewrite ?(right_id_L [] (++)).
Qed.

(** Before [Done]: the stream stays open, no error is recorded, and the
    writer has been handed the records of the statuses published, in call
    order. *)
Lemma steps_open d calls a :
  sh_closed a = false ->
  called_Done calls = false ->
  sh_closed (steps quote d calls a) = false /\
  sh_err (steps quote d calls a) = sh_err a /\
  writes (sh_trace (steps quote d calls a))
  = writes (sh_trace a) ++ map (record quote) (published calls).
Proof.
  revert a. induction calls as [|c calls IH]; intros a Ha Hc.
  { simpl. by rewrite (right_id_L [] (++)). }
  change (steps quote d (c :: calls) a) with (steps quote d calls (step quote d c a)).
  simpl in Hc. apply orb_false_iff in Hc as [Hc1 Hc2].
  destruct (IH (step quote d c a)) as (H1 & H2 & H3); [|done|].
  { destruct c; simpl in *; by rewrite ?Ha. }
  rewrite H1, H2, H3.
  destruct c; simpl in *; try done; rewrite ?Ha; simpl;
    rewrite ?writes_app; simpl; by rewrite <-?(assoc_L (++)), ?(right_id_L [] (++)).
Qed.

Lemma step_Done_open d e a :
  sh_closed a = false ->
  sh_closed (step quote d (CallDone e) a) = true /\
  sh_err (step quote d (CallDone e) a) = e /\
  sh_w (step quote d (CallDone e) a) = sh_w a /\
  writes (sh_trace (step quote d (CallDone e) a)) = writes (sh_trace a).
Proof.
  intros Ha. simpl. rewrite Ha. simpl. rewrite writes_app. simpl.
  by rewrite (right_id_L [] (++)).
Qed.

(** The shape after a history in which [Done e] is the first [Done]. *)
Lemma steps_Done d before e after a :
  sh_closed a = false ->
  called_Done before = false ->
  sh_closed (steps quote d (before ++ CallDone e :: after) a) = true /\
  sh_err (steps quote d (before ++ CallDone e :: after) a) = e /\
  writes (sh_trace (steps quote d (before ++ CallDone e :: after) a))
  = writes (sh_trace a) ++ map (record quote) (published before).
Proof.
  intros Ha Hb. rewrite steps_app.
  destruct (steps_open d before a Ha Hb) as (H1 & H2 & H3).
  destruct (step_Done_open d e _ H1) as (K1 & K2 & K3 & K4).
  change (steps quote d (CallDone e :: after) ?x)
    with (steps quote d after (step quote d (CallDone e) x)).
  destruct (steps_closed d after _ K1) as (L1 & L2 & L3 & L4).
  by rewrite L1, L2, L4, K2, K4, H3.
Qed.

(** Whatever the history, once it holds a [Done] the stream is closed. *)
Lemma steps_called_Done d calls a :
  called_Done calls = true -> sh_closed (steps quote d calls a) = true.
Proof.
  revert a. induction calls as [|c calls IH]; intros a Hc; [done|].
  change (steps quote d (c :: calls) a) with (steps quote d calls (step quote d c a)).
  simpl in Hc. destruct (is_Done c) eqn:Hd.
  - destruct c; try done. apply steps_closed. simpl. by destruct (sh_closed a).
  - by apply IH.
Qed.

Lemma called_Done_app (calls1 calls2 : list call) :
  called_Done (calls1 ++ calls2) = called_Done calls1 || called_Done calls2.
Proof. apply existsb_app. Qed.

(** A stream that starts open is closed exactly when [Done] has been
    called. *)
Lemma steps_closed_called_Done d calls a :
  sh_closed a = false -> sh_closed (steps quote d calls a) = called_Done calls.
Proof.
  intros Ha. destruct (called_Done calls) eqn:Hc.
  - by apply steps_called_Done.
  - by destruct (steps_open d calls a Ha Hc) as (H1 & _).
Qed.

(** C1. On a stream made by [NewJSONMessageStream], whatever was called
    before and after, a [Publish] that comes after a [Done] returns nil,
    leaves the writer as it was and hands it nothing, and logs the warning;
    while no [Done] has been called, [Publish] hands the writer exactly one
    record, the one of its status, and returns the error of that
    [Write]. *)
Theorem Publish_after_Done_writes_nothing (sink : W) (cs : gmap loc chan)
    (before after : list call) (e : error) (ctx : Context) (status : Status) :
  (let st := run quote (before ++ CallDone e :: after) (NewJSONMessageStream sink cs) in
   let r := Publish quote ctx status st in
   r.1 = Ok None /\
   w (self r.2) = w (self st) /\
   writes (trace r.2) = writes (trace st) /\
   warnings (trace r.2)
   = warnings (trace st) ++ ["Publish called on a finalized stream"]) /\
  (called_Done before = false ->
   let st := run quote before (NewJSONMessageStream sink cs) in
   let r := Publish quote ctx status st in
   let wr := Write (w (self st)) (record quote status) in
   r.1 = Ok wr.2.2 /\
   w (self r.2) = wr.1 /\
   writes (trace r.2) = writes (trace st) ++ [record quote status]).
Proof.
  rewrite New_shape, !run_shape. split.
  - cbv zeta. rewrite Publish_closed.
    2:{ apply steps_called_Done. rewrite called_Done_app. simpl. apply orb_true_r. }
    simpl. rewrite steps_called_Done
      by (rewrite called_Done_app; simpl; apply orb_true_r).
    simpl. rewrite writes_app, warnings_app. simpl.
    by rewrite (right_id_L [] (++)).
  - intros Hb. cbv zeta.
    destruct (steps_open (fresh (dom cs)) before
      {| sh_closed := false; sh_err := None; sh_w := sink; sh_trace := [] |}
      eq_refl Hb) as (H1 & _ & _).
    rewrite Publish_open by done. simpl. rewrite H1. simpl.
    by rewrite writes_app.
Qed.

(** C2. After the first [Done(e)] on a stream made by
    [NewJSONMessageStream], for nil and non-nil [e] alike and whatever is
    called afterwards, [Err()] returns [e] and the channel that [Wait()]
    returns is ready; that [Done] itself returns normally. *)
Theorem Done_records_outcome (sink : W) (cs : gmap loc chan)
    (before after : list call) (e : error) :
  called_Done before = false ->
  (Done e (run quote before (NewJSONMessageStream sink cs))).1 = Ok tt /\
  let st := run quote (before ++ CallDone e :: after) (NewJSONMessageStream sink cs) in
  (Err st).1 = Ok e /\
  exists c, (Wait st).1 = Ok c /\ ready st c = true.
Proof.
  intros Hb. rewrite New_shape, !run_shape.
  destruct (steps_open (fresh (dom cs)) before
    {| sh_closed := false; sh_err := None; sh_w := sink; sh_trace := [] |}
    eq_refl Hb) as (H1 & _ & _).
  destruct (steps_Done (fresh (dom cs)) before e after
    {| sh_closed := false; sh_err := None; sh_w := sink; sh_trace := [] |}
    eq_refl Hb) as (K1 & K2 & _).
  split; [by rewrite (Done_open _ _ _ _ H1)|].
  cbv zeta. rewrite Err_shape, Wait_shape. simpl. split; [by rewrite K2|].
  eexists. split; [done|]. by rewrite ready_shape.
Qed.

(** C3. Take the handle a waiter got from [Wait()] after the calls
    [earlier], and any calls [later], receives of other waiters among them.
    After [earlier ++ later] the handle is ready exactly when [Done] has
    been called somewhere in that history, before or after the waiter got
    the handle: it becomes ready with the call of [Done] and is ready after
    every longer history. A waiter's receive goes through from then on and
    waits before. *)
Theorem Wait_handle_ready_is_sticky (sink : W) (cs : gmap loc chan)
    (earlier later : list call) :
  exists c,
    (Wait (run quote earlier (NewJSONMessageStream sink cs))).1 = Ok c /\
    ready (run quote (earlier ++ later) (NewJSONMessageStream sink cs)) c
    = called_Done (earlier ++ later) /\
    (await (run quote (earlier ++ later) (NewJSONMessageStream sink cs))).1
    = if called_Done (earlier ++ later) then Ok tt else Block.
Proof.
  rewrite New_shape, !run_shape.
  exists (fresh (dom cs)). rewrite Wait_shape, await_shape, !ready_shape.
  by rewrite steps_closed_called_Done.
Qed.

(** C7. When the statuses published before the first [Done] are
    [published before], the writer has been handed exactly their records,
    in call order, while the stream is still open; [Done] and whatever is
    called after it add nothing. *)
Theorem Publish_records_in_call_order (sink : W) (cs : gmap loc chan)
    (before after : list call) (e : error) :
  called_Done before = false ->
  let st1 := run quote before (NewJSONMessageStream sink cs) in
  let st2 := run quote (before ++ CallDone e :: after) (NewJSONMessageStream sink cs) in
  writes (trace st1) = map (record quote) (published before) /\
  ready st1 (done (self st1)) = false /\
  ready st2 (done (self st2)) = true /\
  writes (trace st2) = map (record quote) (published before).
Proof.
  intros Hb. cbv zeta. rewrite New_shape, !run_shape.
  set (a0 := {| sh_closed := false; sh_err := None; sh_w := sink; sh_trace := [] |}).
  destruct (steps_open (fresh (dom cs)) before a0 eq_refl Hb) as (H1 & _ & H3).
  destruct (steps_Done (fresh (dom cs)) before e after a0 eq_refl Hb) as (K1 & _ & K3).
  simpl. rewrite !ready_shape. by rewrite H1, H3, K1, K3.
Qed.

(** C10. A stream made by [NewJSONMessageStream] starts open: as long as
    [Done] has not been called the channel of [Wait()] is not ready and
    [Err()] returns nil; and [Wait()] returns the same channel, the one
    made with the stream, after every history of calls. *)
Theorem new_stream_is_open (sink : W) (cs : gmap loc chan) (calls : list call) :
  (Wait (run quote calls (NewJSONMessageStream sink cs))).1
  = Ok (done (self (NewJSONMessageStream sink cs))) /\
  (called_Done calls = false ->
   ready (run quote calls (NewJSONMessageStream sink cs))
     (done (self (NewJSONMessageStream sink cs))) = false /\
   (Err (run quote calls (NewJSONMessageStream sink cs))).1 = Ok None).
Proof.
  rewrite New_shape, !run_shape. rewrite Wait_shape, Err_shape, ready_shape. simpl.
  split; [done|]. intros Hc.
  destruct (steps_open (fresh (dom cs)) calls
    {| sh_closed := false; sh_err := None; sh_w := sink; sh_trace := [] |}
    eq_refl Hc) as (H1 & H2 & _).
  by rewrite H1, H2.
Qed.

(** C4 as the code has it. A [Done] that comes after a [Done] panics, and
    the panic is the one of [close] on a closed channel: the second call
    takes the mutex, reads the channel, executes [close] on it, and its
    deferred [Unlock] runs. Nothing tests the channel before [close]. The
    error recorded by the first call, the channel and the writer are as
    they were. *)
Theorem second_Done_panics_in_close (sink : W) (cs : gmap loc chan)
    (before after : list call) (e e' : error) :
  let st := run quote (before ++ CallDone e :: after) (NewJSONMessageStream sink cs) in
  Done e' st
  = (Panic "close of closed channel",
     log [EvLock; EvLoad field_done; EvClose (done (self st)); EvUnlock] st).
Proof.
  cbv zeta. rewrite New_shape, !run_shape.
  assert (Ha : sh_closed (steps quote (fresh (dom cs)) (before ++ CallDone e :: after)
    {| sh_closed := false; sh_err := None; sh_w := sink; sh_trace := [] |}) = true).
  { apply steps_called_Done. rewrite called_Done_app. simpl. apply orb_true_r. }
  rewrite Done_closed by done.
  unfold world_of, log. simpl. by rewrite Ha.
Qed.

(** C6 as the code has it. While no [Done] has been called, [Publish]
    hands the writer one byte slice: the JSON object of the message and a
    line feed. For a non-empty message the object has the one member
    "status", whose value is the message; for the empty message the member
    is left out and the object is empty. No array surrounds it and no other
    member is in it. *)
Theorem Publish_record_is_status_object (sink : W) (cs : gmap loc chan)
    (before : list call) (ctx : Context) (status : Status) :
  called_Done before = false ->
  let st := run quote before (NewJSONMessageStream sink cs) in
  writes (events_of (Publish quote ctx status) st) = [record quote status] /\
  jsonmessage.to_json (status_message status)
  = json.VObject
      (if decide (Message status = "") then []
       else [("status", json.VString (Message status))]) /\
  record quote status
  = (if decide (Message status = "") then "{}"
     else "{" +:+ json.dquote +:+ "status" +:+ json.dquote +:+ ":" +:+
          quote (Message status) +:+ "}")
    +:+ json.newline.
Proof.
  intros Hb. cbv zeta. rewrite New_shape, !run_shape.
  destruct (steps_open (fresh (dom cs)) before
    {| sh_closed := false; sh_err := None; sh_w := sink; sh_trace := [] |}
    eq_refl Hb) as (H1 & _ & _).
  split; [|split].
  - unfold events_of. rewrite Publish_open by done.
    unfold world_of, step. rewrite H1. simpl.
    by rewrite drop_app_length.
  - unfold jsonmessage.to_json, status_message, json.omitempty_string. simpl.
    by destruct (decide (Message status = "")).
  - unfold record, json.encode_line, jsonmessage.to_json, status_message,
      json.omitempty_string. simpl.
    destruct (decide (Message status = "")); [done|].
    unfold json.dquote. by simpl.
Qed.

(** *** Publish against Done *)

Local Ltac events_by_cases :=
  unfold events_of, ready, chan_open, Publish, Done, Publish_prog, Done_prog,
    run_prog, with_defer, mbind, M_bind,
    bind, mret, M_ret, ret, load_done, store_err, try_recv, chan_close, Lock,
    Unlock, Warn, Encode, log, set_self, set_chans, set_Mutex, set_err, set_w,
    chan_ready, chan_after_recv, record;
  simpl;
  repeat match goal with
    | |- context [?m !! ?k] => destruct (m !! k) as [[? [|[] ?] []]|]; simpl
    end;
  rewrite ?lookup_insert_eq; simpl;
  rewrite <-?(assoc_L (++)); simpl;
  rewrite ?drop_app_length, ?drop_all;
  try done.

(** In every world, [Publish] reads the field [done], tries a receive on
    that channel, and goes on as the channel tells: to the warning when it
    is ready, to the writer when it is not. *)
Lemma Publish_events (st : world W) (ctx : Context) (status : Status) :
  events_of (Publish quote ctx status) st
  = [EvLoad field_done; EvRecv (done (self st))] ++
    (if ready st (done (self st))
     then [EvWarn "Publish called on a finalized stream"]
     else [EvLoad field_w; EvWrite (record quote status)]).
Proof. destruct st as [chs [mu d0 e0 x] tr]. by events_by_cases. Qed.

(** In every world, [Done] waits when the mutex is held, and otherwise
    locks, reads the field [done], executes [close] on that channel,
    assigns [err] if the channel was open, and unlocks. *)
Lemma Done_events (st : world W) (e : error) :
  events_of (Done e) st
  = if Mutex (self st) then []
    else [EvLock; EvLoad field_done; EvClose (done (self st))] ++
         (if chan_open st (done (self st)) then [EvStore field_err] else []) ++
         [EvUnlock].
Proof. destruct st as [chs [[] d0 e0 x] tr]; by events_by_cases. Qed.

(** Run [Publish] from any world and [Done] from any world. No plain
    access of the one conflicts with a plain access of the other:
    [Publish] reads the fields [done] and [w], [Done] reads [done] and
    assigns [err]. [Publish] decides whether the stream is closed by a
    receive on the channel [done] and by nothing else, and [Done] closes
    the stream by [close] on that same channel, after which the receive is
    ready. *)
Lemma Publish_Done_accesses (st1 st2 : world W) (ctx : Context)
    (status : Status) (e : error) :
  races (events_of (Publish quote ctx status) st1) (events_of (Done e) st2) = false /\
  events_of (Publish quote ctx status) st1
  = [EvLoad field_done; EvRecv (done (self st1))] ++
    (if ready st1 (done (self st1))
     then [EvWarn "Publish called on a finalized stream"]
     else [EvLoad field_w; EvWrite (record quote status)]) /\
  (Mutex (self st2) = false ->
   chan_open st2 (done (self st2)) = true ->
   events_of (Done e) st2
   = [EvLock; EvLoad field_done; EvClose (done (self st2)); EvStore field_err;
      EvUnlock] /\
   done (self (Done e st2).2) = done (self st2) /\
   ready (Done e st2).2 (done (self st2)) = true).
Proof.
  split; [|split].
  - rewrite Publish_events, Done_events.
    by destruct (ready st1 (done (self st1))), (Mutex (self st2)),
      (chan_open st2 (done (self st2))).
  - apply Publish_events.
  - intros Hm Ho. rewrite Done_events, Hm, Ho. split; [done|].
    destruct st2 as [chs [mu d0 e0 x] tr]. simpl in *. subst mu.
    unfold chan_open in Ho. simpl in Ho.
    destruct (chs !! d0) as [[cap buf cl]|] eqn:Hl; [|done].
    destruct cl; [done|].
    unfold Done, Done_prog, run_prog, with_defer, mbind, M_bind, bind, load_done,
      store_err, chan_close, Lock, Unlock, ready. simpl. rewrite Hl. simpl.
    rewrite lookup_insert_eq. split; [done|].
    unfold chan_ready. simpl. by destruct buf.
Qed.

End Stream.

(** ** The theorems at work: the scenarios of a deployment *)

Lemma Publish_after_Done_writes_nothing_witness :
  let st := run quote_plain [CallPublish tt creating_web] broken_stream in
  let r := Publish quote_plain tt web_running st in
  let wr := Write (w (self st)) (record quote_plain web_running) in
  r.1 = Ok wr.2.2 /\
  w (self r.2) = wr.1 /\
  writes (trace r.2) = writes (trace st) ++ [record quote_plain web_running].
Proof.
  apply (proj2 (Publish_after_Done_writes_nothing quote_plain Broken ∅
                  [CallPublish tt creating_web] [] None tt web_running)).
  reflexivity.
Defined.

Lemma Done_records_outcome_witness :
  (Done (Some "image pull failed")
     (run quote_plain [CallPublish tt creating_web] buffer_stream)).1 = Ok tt /\
  let st := run quote_plain
    ([CallPublish tt creating_web] ++
     CallDone (Some "image pull failed") :: [CallPublish tt web_running; CallErr])
    buffer_stream in
  (Err st).1 = Ok (Some "image pull failed") /\
  exists c, (Wait st).1 = Ok c /\ ready st c = true.
Proof.
  apply (Done_records_outcome quote_plain "" ∅ [CallPublish tt creating_web]
           [CallPublish tt web_running; CallErr] (Some "image pull failed")).
  reflexivity.
Defined.

Lemma Publish_records_in_call_order_witness :
  let st1 := run quote_plain
    [CallPublish tt creating_web; CallWait; CallPublish tt web_running] buffer_stream in
  let st2 := run quote_plain
    ([CallPublish tt creating_web; CallWait; CallPublish tt web_running] ++
     CallDone None :: [CallPublish tt creating_web; CallAwait]) buffer_stream in
  writes (trace st1)
  = map (record quote_plain)
      (published [CallPublish tt creating_web; CallWait; CallPublish tt web_running]) /\
  ready st1 (done (self st1)) = false /\
  ready st2 (done (self st2)) = true /\
  writes (trace st2)
  = map (record quote_plain)
      (published [CallPublish tt creating_web; CallWait; CallPublish tt web_running]).
Proof.
  apply (Publish_records_in_call_order quote_plain "" ∅
           [CallPublish tt creating_web; CallWait; CallPublish tt web_running]
           [CallPublish tt creating_web; CallAwait] None).
  reflexivity.
Defined.

Lemma new_stream_is_open_witness :
  ready (run quote_plain [CallPublish tt creating_web; CallWait; CallAwait] buffer_stream)
    (done (self buffer_stream)) = false /\
  (Err (run quote_plain [CallPublish tt creating_web; CallWait; CallAwait]
          buffer_stream)).1 = Ok None.
Proof.
  apply (proj2 (new_stream_is_open quote_plain "" ∅
                  [CallPublish tt creating_web; CallWait; CallAwait])).
  reflexivity.
Defined.

Lemma Publish_record_is_status_object_witness :
  let st := run quote_plain [CallPublish tt creating_web] buffer_stream in
  writes (events_of (Publish quote_plain tt web_running) st)
  = [record quote_plain web_running] /\
  jsonmessage.to_json (status_message web_running)
  = json.VObject
      (if decide (Message web_running = "") then []
       else [("status", json.VString (Message web_running))]) /\
  record quote_plain web_running
  = (if decide (Message web_running = "") then "{}"
     else "{" +:+ json.dquote +:+ "status" +:+ json.dquote +:+ ":" +:+
          quote_plain (Message web_running) +:+ "}")
    +:+ json.newline.
Proof.
  apply (Publish_record_is_status_object quote_plain "" ∅
           [CallPublish tt creating_web] tt web_running).
  reflexivity.
Defined.

(** The second [Done] of a program: it reaches [close] on the channel that
    the first call closed, and [close] panics. *)
Lemma second_Done_reaches_close :
  let st := run quote_plain [CallDone None] buffer_stream in
  ready st (done (self st)) = true /\
  events_of (Done (Some "again")) st
  = [EvLock; EvLoad field_done; EvClose (done (self st)); EvUnlock] /\
  chan_close (done (self st)) st
  = (Panic "close of closed channel", log [EvClose (done (self st))] st) /\
  (Done (Some "again") st).1 = Panic "close of closed channel".
Proof. vm_compute. repeat split. Qed.

(** [Publish] of a status with the empty message: the record is the empty
    object, with no member "status". *)
Lemma Publish_empty_message_omits_status :
  writes (events_of (Publish quote_plain tt no_message) buffer_stream)
  = ["{}" +:+ json.newline] /\
  jsonmessage.to_json (status_message no_message) = json.VObject [] /\
  json.member "status" (jsonmessage.to_json (status_message no_message)) = None /\
  json.member "status" (jsonmessage.to_json (status_message no_message))
  <> Some (json.VString (Message no_message)) /\
  json.member "status" (jsonmessage.to_json (status_message creating_web))
  = Some (json.VString (Message creating_web)).
Proof. vm_compute. repeat split; done. Qed.

(** Scenario A: two statuses, then [Done(nil)]. The buffer holds the two
    records in order, the waiter goes on, and [Err()] is nil. *)
Example scenario_A :
  let st := run quote_plain
    [CallPublish tt creating_web; CallPublish tt web_running; CallDone None]
    buffer_stream in
  w (self st)
  = "{" +:+ json.dquote +:+ "status" +:+ json.dquote +:+ ":" +:+ json.dquote +:+
    "creating web" +:+ json.dquote +:+ "}" +:+ json.newline +:+
    "{" +:+ json.dquote +:+ "status" +:+ json.dquote +:+ ":" +:+ json.dquote +:+
    "web: 2/2 running" +:+ json.dquote +:+ "}" +:+ json.newline /\
  (await st).1 = Ok tt /\
  (Err st).1 = Ok None.
Proof. vm_compute. repeat split. Qed.

(** Scenario B: a status, [Done] with an error, then a stray [Publish]. *)
Example scenario_B :
  let st := run quote_plain
    [CallPublish tt creating_web; CallDone (Some "image pull failed");
     CallPublish tt web_running]
    buffer_stream in
  writes (trace st) = [record quote_plain creating_web] /\
  warnings (trace st) = ["Publish called on a finalized stream"] /\
  (Err st).1 = Ok (Some "image pull failed").
Proof. vm_compute. repeat split. Qed.

(** ** Goroutines: a call alone, and two calls interleaved *)

Section Adequacy.

Context {St A : Type}.

Lemma solo_step (n : nat) (g g' : goroutine St A) (st st' : St) (x : goroutine St A * St) :
  gstep g st = (g', st') -> solo n g' st' = x -> solo (S n) g st = x.
Proof. intros Hs <-. simpl. by rewrite Hs. Qed.

Lemma solo_panicking (ds : list (M St unit)) (msg : string) (st : St) :
  (unwind (A:=A) ds (Panic msg) st).1 <> Block ->
  exists n, solo n (Panicking msg ds) st
            = (Finished (unwind (A:=A) ds (Panic msg) st).1,
               (unwind (A:=A) ds (Panic msg) st).2).
Proof.
  revert msg st. induction ds as [|d ds IH]; intros msg st Hnb; simpl in *.
  - by exists 1.
  - destruct (d st) as [[u|msg'|] st'] eqn:Hd; simpl in *; [| |done].
    + destruct (IH msg st' Hnb) as [n Hn]. exists (S n).
      eapply solo_step; [|exact Hn]. simpl. unfold run_deferred. by rewrite Hd.
    + destruct (IH msg' st' Hnb) as [n Hn]. exists (S n).
      eapply solo_step; [|exact Hn]. simpl. unfold run_deferred. by rewrite Hd.
Qed.

Lemma solo_returning (ds : list (M St unit)) (a : A) (st : St) :
  (unwind ds (Ok a) st).1 <> Block ->
  exists n, solo n (Running (Return a) ds) st
            = (Finished (unwind ds (Ok a) st).1, (unwind ds (Ok a) st).2).
Proof.
  revert st. induction ds as [|d ds IH]; intros st Hnb; simpl in *.
  - by exists 1.
  - destruct (d st) as [[u|msg'|] st'] eqn:Hd; simpl in *; [| |done].
    + destruct (IH st' Hnb) as [n Hn]. exists (S n).
      eapply solo_step; [|exact Hn]. simpl. unfold run_deferred. by rewrite Hd.
    + destruct (solo_panicking ds msg' st' Hnb) as [n Hn]. exists (S n).
      eapply solo_step; [|exact Hn]. simpl. unfold run_deferred. by rewrite Hd.
Qed.

(** A goroutine that is left alone takes its call to the result and the
    state that [run_prog] gives, deferred calls included, unless the call
    waits for ever. *)
Lemma solo_run_prog_defers (p : prog St A) (ds : list (M St unit)) (st : St) :
  (run_prog p st).1 <> Block ->
  (unwind ds (run_prog p st).1 (run_prog p st).2).1 <> Block ->
  exists n, solo n (Running p ds) st
            = (Finished (unwind ds (run_prog p st).1 (run_prog p st).2).1,
               (unwind ds (run_prog p st).1 (run_prog p st).2).2).
Proof.
  revert ds st. induction p as [a|X op k IH|d rest IH]; intros ds st Hr Hu.
  - simpl in *. by apply solo_returning.
  - simpl in *. destruct (op st) as [[x|msg|] st'] eqn:Hop; simpl in *; [| |done].
    + destruct (IH x ds st' Hr Hu) as [n Hn]. exists (S n).
      eapply solo_step; [|exact Hn]. simpl. by rewrite Hop.
    + destruct (solo_panicking ds msg st' Hu) as [n Hn]. exists (S n).
      eapply solo_step; [|exact Hn]. simpl. by rewrite Hop.
  - simpl in *. unfold with_defer in *.
    destruct (run_prog rest st) as [r st1] eqn:Hrest.
    assert (Heq : unwind ds
        (match r with
         | Block => (Block, st1)
         | _ => match d st1 with
                | (Ok _, st'') => (r, st'')
                | (Panic msg, st'') => (Panic msg, st'')
                | (Block, st'') => (Block, st'')
                end
         end).1
        (match r with
         | Block => (Block, st1)
         | _ => match d st1 with
                | (Ok _, st'') => (r, st'')
                | (Panic msg, st'') => (Panic msg, st'')
                | (Block, st'') => (Block, st'')
                end
         end).2 = unwind (d :: ds) r st1).
    { destruct r as [a|msg|]; simpl in *; [| |done];
        destruct (d st1) as [[u|msg'|] st2]; simpl in *; done. }
    destruct r as [a|msg|]; [| |done].
    + rewrite Heq in Hu |- *.
      destruct (IH (d :: ds) st) as [n Hn]; rewrite ?Hrest; simpl; [done|exact Hu|].
      exists (S n). eapply solo_step; [done|]. by rewrite Hn, Hrest.
    + rewrite Heq in Hu |- *.
      destruct (IH (d :: ds) st) as [n Hn]; rewrite ?Hrest; simpl; [done|exact Hu|].
      exists (S n). eapply solo_step; [done|]. by rewrite Hn, Hrest.
Qed.

Lemma solo_run_prog (p : prog St A) (st : St) :
  (run_prog p st).1 <> Block ->
  exists n, solo n (Running p []) st
            = (Finished (run_prog p st).1, (run_prog p st).2).
Proof. intros Hr. by apply (solo_run_prog_defers p [] st). Qed.

End Adequacy.

(** *** One [Publish] and one [Done], interleaved *)

Section Interleaved.

Context {W : Type} `{!Writer W}.
Variable quote : string -> string.
Variables (ctx : Context) (status : Status) (e e0 : error).
Variables (d : loc) (cs : gmap loc chan) (w0 : W).

#[local] Abbreviation pub_at' := (pub_at quote ctx status d w0).
#[local] Abbreviation done_at' := (done_at (W:=W) e d).
#[local] Abbreviation world_at' := (world_at quote status e e0 d cs w0).
#[local] Abbreviation config' := (config quote ctx status e e0 d cs w0).
#[local] Abbreviation anext' := (anext quote status d).

Local Ltac step_by_cases :=
  unfold pub_at, done_at, world_at, gstep, run_deferred, Publish_prog, Done_prog,
    load_done, store_err, try_recv, chan_close, Lock, Unlock, Warn, Encode, log,
    set_self, set_chans, set_Mutex, set_err, set_w, chan_ready, chan_after_recv,
    record, pub_result;
  simpl;
  rewrite ?lookup_insert_eq; simpl;
  rewrite ?insert_insert_eq, ?(right_id_L [] (++)); simpl;
  try done.

Lemma pstep (pph : pphase) (dph : dphase) (tr : list event) :
  gstep (pub_at' pph) (world_at' dph (wrote_of pph) tr)
  = (pub_at' (pnext (closed_at dph) pph),
     world_at' dph (wrote_of (pnext (closed_at dph) pph))
       (tr ++ pevents d (record quote status) pph)).
Proof. destruct pph as [| | | |b|b], dph; by step_by_cases. Qed.

Lemma dstep (dph : dphase) (wrote : bool) (tr : list event) :
  gstep (done_at' dph) (world_at' dph wrote tr)
  = (done_at' (dnext dph), world_at' (dnext dph) wrote (tr ++ devents d dph)).
Proof. destruct dph; by step_by_cases. Qed.

Lemma interleave_config (schedule : list bool) (c : pphase * dphase * list event) :
  interleave schedule (config' c) = config' (foldl (fun c b => anext' b c) c schedule).
Proof.
  revert c. induction schedule as [|b schedule IH]; intros [[pph dph] tr]; [done|].
  unfold interleave in *. simpl. rewrite <-IH. f_equal.
  destruct b; unfold config, anext; simpl.
  - by rewrite pstep.
  - by rewrite dstep.
Qed.

#[local] Abbreviation ainv' := (ainv quote status).

Lemma ainv_next (tr0 : list event) (b : bool) (c : pphase * dphase * list event) :
  ainv' tr0 c -> ainv' tr0 (anext' b c).
Proof.
  destruct c as [[pph dph] tr]. unfold ainv, anext. simpl.
  intros (Hc & Hw & Hl). destruct b; simpl.
  - rewrite writes_app, warnings_app, Hw, Hl.
    destruct pph as [| | | |[]|[]], (closed_at dph) eqn:Hd; simpl in *;
      rewrite ?(right_id_L [] (++)); repeat split; try done;
      intros; by apply Hc.
  - rewrite writes_app, warnings_app, Hw, Hl.
    destruct dph; simpl in *; rewrite ?(right_id_L [] (++)); repeat split; try done;
      intros Hs; by specialize (Hc Hs).
Qed.

Lemma ainv_foldl (tr0 : list event) (schedule : list bool)
    (c : pphase * dphase * list event) :
  ainv' tr0 c -> ainv' tr0 (foldl (fun c b => anext' b c) c schedule).
Proof.
  revert c. induction schedule as [|b schedule IH]; intros c Hc; [done|].
  simpl. by apply IH, ainv_next.
Qed.

End Interleaved.

Section InterleavedStream.

Context {W : Type} `{!Writer W}.
Variable quote : string -> string.

(** One goroutine calls [Publish] and another calls [Done(e)] on an open
    stream, their operations interleaved by any schedule. When both are
    back, [Done] has returned normally, the stream is closed with [e]
    recorded and the mutex free, and [Publish] has done one of the two
    things it does when it runs alone: found the channel closed, written
    nothing, logged the warning and returned nil; or found it open, handed
    its record to the writer once and returned the error of that [Write]. *)
Theorem Publish_Done_interleaved (sink : W) (cs : gmap loc chan)
    (before : list call) (ctx : Context) (status : Status) (e : error)
    (schedule : list bool) :
  called_Done before = false ->
  let st := run quote before (NewJSONMessageStream sink cs) in
  let wr := Write (w (self st)) (record quote status) in
  let s' := interleave schedule
    (Running (Publish_prog quote ctx status) [], Running (Done_prog e) [], st) in
  forall rp rd,
    s'.1.1 = Finished rp ->
    s'.1.2 = Finished rd ->
    rd = Ok tt /\
    ready s'.2 (done (self st)) = true /\
    err (self s'.2) = e /\
    Mutex (self s'.2) = false /\
    ((rp = Ok None /\
      w (self s'.2) = w (self st) /\
      writes (trace s'.2) = writes (trace st) /\
      warnings (trace s'.2)
      = warnings (trace st) ++ ["Publish called on a finalized stream"]) \/
     (rp = Ok wr.2.2 /\
      w (self s'.2) = wr.1 /\
      writes (trace s'.2) = writes (trace st) ++ [record quote status] /\
      warnings (trace s'.2) = warnings (trace st))).
Proof.
  intros Hb. cbv zeta. rewrite New_shape, !run_shape.
  destruct (steps_open quote (fresh (dom cs)) before
    {| sh_closed := false; sh_err := None; sh_w := sink; sh_trace := [] |}
    eq_refl Hb) as (H1 & _ & _).
  destruct (steps quote (fresh (dom cs)) before _) as [b e0 x tr].
  simpl in H1. subst b.
  change (Running (Publish_prog quote ctx status) [], Running (Done_prog e) [],
          world_of cs (fresh (dom cs))
            {| sh_closed := false; sh_err := e0; sh_w := x; sh_trace := tr |})
    with (config quote ctx status e e0 (fresh (dom cs)) cs x (PStart, DStart, tr)).
  rewrite interleave_config.
  pose proof (ainv_foldl quote status (fresh (dom cs)) tr schedule
                (PStart, DStart, tr)) as Hinv.
  destruct (foldl _ _ schedule) as [[pph dph] tr'].
  destruct Hinv as (Hc & Hw & Hl).
  { unfold ainv. simpl. by rewrite !(right_id_L [] (++)). }
  unfold config. simpl in *. intros rp rd Hp Hd.
  destruct dph; simpl in Hd; try discriminate. injection Hd as <-.
  destruct pph as [| | | |wrote|wrote]; simpl in Hp; try discriminate.
  injection Hp as <-. unfold ready. simpl. rewrite lookup_insert_eq. simpl.
  repeat split; try done.
  destruct wrote; simpl in *.
  - right. by rewrite Hw, Hl, (right_id_L [] (++)).
  - left. by rewrite Hw, Hl, (right_id_L [] (++)).
Qed.

(** Both happen: [Publish] first and then [Done], and [Done] first and
    then [Publish], take both goroutines back. *)
(** C8. [Publish] and [Done] on two goroutines. Run each from any world:
    no plain access of the one conflicts with a plain access of the other
    ([Publish] reads the fields [done] and [w], [Done] reads [done] and
    assigns [err]), so there is no pair of accesses to race. [Publish]
    decides whether the stream is closed by a receive on the channel
    [done] and by nothing else; [Done] closes the stream by [close] on that
    same channel, after which the receive is ready. And under every
    schedule of the steps of one [Publish] and one [Done] on an open
    stream, when both are back the stream is closed with the error
    recorded, and [Publish] has either found the channel closed, written
    nothing and returned nil, or found it open, written its one record and
    returned the error of the [Write]. *)
Theorem Publish_and_Done_do_not_race (st1 st2 : world W) (sink : W)
    (cs : gmap loc chan) (before : list call) (ctx : Context) (status : Status)
    (e : error) (schedule : list bool) :
  races (events_of (Publish quote ctx status) st1) (events_of (Done e) st2) = false /\
  events_of (Publish quote ctx status) st1
  = [EvLoad field_done; EvRecv (done (self st1))] ++
    (if ready st1 (done (self st1))
     then [EvWarn "Publish called on a finalized stream"]
     else [EvLoad field_w; EvWrite (record quote status)]) /\
  (Mutex (self st2) = false ->
   chan_open st2 (done (self st2)) = true ->
   events_of (Done e) st2
   = [EvLock; EvLoad field_done; EvClose (done (self st2)); EvStore field_err;
      EvUnlock] /\
   done (self (Done e st2).2) = done (self st2) /\
   ready (Done e st2).2 (done (self st2)) = true) /\
  (called_Done before = false ->
   let st := run quote before (NewJSONMessageStream sink cs) in
   let wr := Write (w (self st)) (record quote status) in
   let s' := interleave schedule
     (Running (Publish_prog quote ctx status) [], Running (Done_prog e) [], st) in
   forall rp rd,
     s'.1.1 = Finished rp ->
     s'.1.2 = Finished rd ->
     rd = Ok tt /\
     ready s'.2 (done (self st)) = true /\
     err (self s'.2) = e /\
     ((rp = Ok None /\
       w (self s'.2) = w (self st) /\
       writes (trace s'.2) = writes (trace st)) \/
      (rp = Ok wr.2.2 /\
       w (self s'.2) = wr.1 /\
       writes (trace s'.2) = writes (trace st) ++ [record quote status]))).
Proof.
  destruct (Publish_Done_accesses quote st1 st2 ctx status e) as (H1 & H2 & H3).
  split; [exact H1|]. split; [exact H2|]. split; [exact H3|].
  intros Hb. cbv zeta. intros rp rd Hp Hd.
  destruct (Publish_Done_interleaved sink cs before ctx status e schedule Hb
              rp rd Hp Hd) as (K1 & K2 & K3 & _ & K5).
  split; [exact K1|]. split; [exact K2|]. split; [exact K3|].
  destruct K5 as [(L1 & L2 & L3 & _)|(L1 & L2 & L3 & _)]; [left|right]; done.
Qed.

Lemma Publish_Done_both_orders (sink : W) (cs : gmap loc chan)
    (ctx : Context) (status : Status) (e : error) :
  let st := NewJSONMessageStream sink cs in
  let wr := Write sink (record quote status) in
  ((interleave (replicate 5 true ++ replicate 7 false)
      (Running (Publish_prog quote ctx status) [], Running (Done_prog e) [], st)).1
   = (Finished (Ok wr.2.2), Finished (Ok tt))) /\
  ((interleave (replicate 7 false ++ replicate 5 true)
      (Running (Publish_prog quote ctx status) [], Running (Done_prog e) [], st)).1
   = (Finished (Ok None), Finished (Ok tt))).
Proof.
  cbv zeta. rewrite New_shape.
  change (Running (Publish_prog quote ctx status) [], Running (Done_prog e) [],
          world_of cs (fresh (dom cs))
            {| sh_closed := false; sh_err := None; sh_w := sink; sh_trace := [] |})
    with (config quote ctx status e None (fresh (dom cs)) cs sink (PStart, DStart, [])).
  by rewrite !interleave_config.
Qed.

End InterleavedStream.

Lemma Publish_and_Done_do_not_race_witness :
  (events_of (Done (Some "image pull failed")) buffer_stream
   = [EvLock; EvLoad field_done; EvClose (done (self buffer_stream));
      EvStore field_err; EvUnlock] /\
   done (self (Done (Some "image pull failed") buffer_stream).2)
   = done (self buffer_stream) /\
   ready (Done (Some "image pull failed") buffer_stream).2 (done (self buffer_stream))
   = true) /\
  (let st := run quote_plain [CallPublish tt creating_web] buffer_stream in
   let wr := Write (w (self st)) (record quote_plain web_running) in
   let s' := interleave
     [true; false; false; false; true; false; true; false; true; false; false; true]
     (Running (Publish_prog quote_plain tt web_running) [],
      Running (Done_prog (Some "image pull failed")) [], st) in
   exists rp rd,
     s'.1.1 = Finished rp /\
     s'.1.2 = Finished rd /\
     rd = Ok tt /\
     ready s'.2 (done (self st)) = true /\
     err (self s'.2) = Some "image pull failed" /\
     ((rp = Ok None /\
       w (self s'.2) = w (self st) /\
       writes (trace s'.2) = writes (trace st)) \/
      (rp = Ok wr.2.2 /\
       w (self s'.2) = wr.1 /\
       writes (trace s'.2) = writes (trace st) ++ [record quote_plain web_running]))).
Proof.
  pose proof (Publish_and_Done_do_not_race quote_plain buffer_stream buffer_stream
    "" ∅ [CallPublish tt creating_web] tt web_running (Some "image pull failed")
    [true; false; false; false; true; false; true; false; true; false; false; true])
    as (_ & _ & H3 & H4).
  split.
  - apply H3; reflexivity.
  - cbv zeta. eexists _, _. split; [reflexivity|]. split; [reflexivity|].
    apply H4; reflexivity.
Defined.

(** A consumer that follows the interface, against [Done] with an error.
    [Done] closes the channel before it assigns [err]: in the schedule
    below the consumer is released by the close and reads [err] before the
    assignment, so it sees nil although the stream ends with the error
    recorded. With the calls one after the other this cannot be seen:
    [Err()] after a [Done(e)] that has returned gives [e]. *)
Example consumer_reads_err_before_Done_assigns_it :
  let s' := interleave
    ([false; false; false; false] ++ [true; true; true; true] ++ [false; false; false; false])
    (Running consumer_prog [], Running (Done_prog (Some "image pull failed")) [],
     buffer_stream) in
  s'.1.1 = Finished (Ok None) /\
  s'.1.2 = Finished (Ok tt) /\
  err (self s'.2) = Some "image pull failed" /\
  trace s'.2
  = [EvLock; EvLoad field_done; EvClose 0;
     EvLoad field_done; EvRecv 0; EvLoad field_err;
     EvStore field_err; EvUnlock].
Proof. vm_compute. repeat split. Qed.

(** * Further properties *)

(** ** merge of any number of maps *)

Lemma merged_table_snoc (h : mheap) (envs : list gomap) (env : gomap) :
  merged_table h (envs ++ [env]) = contents h env ∪ merged_table h envs.
Proof. unfold merged_table. by rewrite foldl_app. Qed.

Lemma merged_table_fold (h : mheap) (envs : list gomap) (acc : table) :
  foldl (fun acc env => contents h env ∪ acc) acc envs = merged_table h envs ∪ acc.
Proof.
  revert acc. induction envs as [|env envs IH] using rev_ind; intros acc.
  - unfold merged_table. simpl. by rewrite (left_id_L ∅ (∪)).
  - rewrite merged_table_snoc, foldl_app. simpl. rewrite IH.
    by rewrite (assoc_L (∪)).
Qed.

Lemma merged_table_app (h : mheap) (envs1 envs2 : list gomap) :
  merged_table h (envs1 ++ envs2) = merged_table h envs2 ∪ merged_table h envs1.
Proof. unfold merged_table at 1. rewrite foldl_app. apply merged_table_fold. Qed.

(** The merged table at a key: the value of the last map that has the
    key. *)
Lemma merged_table_lookup (h : mheap) (envs : list gomap) (k v : string) :
  merged_table h envs !! k = Some v <->
  exists i env,
    envs !! i = Some env /\
    contents h env !! k = Some v /\
    forall j env', i < j -> envs !! j = Some env' -> contents h env' !! k = None.
Proof.
  induction envs as [|env envs IH] using rev_ind.
  - unfold merged_table. simpl. rewrite lookup_empty. split; [done|].
    by intros (i & env & Hi & _).
  - rewrite merged_table_snoc, lookup_union_Some_raw, IH. split.
    + intros [Hk|(Hn & i & env0 & Hi & Hv & Hlast)].
      * exists (length envs), env. split; [by rewrite list_lookup_middle|].
        split; [done|]. intros j env' Hj Hl.
        apply lookup_lt_Some in Hl. rewrite length_app in Hl. simpl in Hl. lia.
      * exists i, env0. split; [by apply lookup_app_l_Some|]. split; [done|].
        intros j env' Hj Hl.
        destruct (decide (j < length envs)) as [Hlt|Hge].
        -- rewrite lookup_app_l in Hl by done. by apply (Hlast j).
        -- pose proof (lookup_lt_Some _ _ _ Hl) as Hb.
           rewrite length_app in Hb. simpl in Hb.
           assert (j = length envs) as -> by lia.
           rewrite list_lookup_middle in Hl by done. by injection Hl as <-.
    + intros (i & env0 & Hi & Hv & Hlast).
      destruct (decide (i < length envs)) as [Hlt|Hge].
      * right. split.
        -- apply (Hlast (length envs)); [done|]. by rewrite list_lookup_middle.
        -- exists i, env0. rewrite lookup_app_l in Hi by done.
           split; [done|]. split; [done|]. intros j env' Hj Hl.
           apply (Hlast j); [done|]. by apply lookup_app_l_Some.
      * left. pose proof (lookup_lt_Some _ _ _ Hi) as Hb.
        rewrite length_app in Hb. simpl in Hb.
        assert (i = length envs) as -> by lia.
        rewrite list_lookup_middle in Hi by done. by injection Hi as <-.
Qed.

Section MergeMore.

Variable range_order : table -> list (string * string).
Hypothesis range_order_perm : forall t, range_order t ≡ₚ map_to_list t.

(** X1. [merge] of any number of maps, nil maps among them: the result is a
    new map in which a key has the value of the last argument that has the
    key, and no key that no argument has. *)
Theorem merge_last_wins (h : mheap) (envs : list gomap) :
  Forall (fun env => allocated h env = true) envs ->
  exists (l : loc) (h' : mheap),
    merge range_order envs h = (Ok (Some l), h') /\
    h !! l = None /\
    forall k v,
      contents h' (Some l) !! k = Some v <->
      exists i env,
        envs !! i = Some env /\
        contents h env !! k = Some v /\
        forall j env', i < j -> envs !! j = Some env' -> contents h env' !! k = None.
Proof using range_order_perm.
  intros Hall. eexists _, _. split; [by apply merge_spec|].
  split; [apply fresh_unallocated|]. intros k v. simpl.
  rewrite lookup_insert_eq. simpl. apply merged_table_lookup.
Qed.

(** X2. The map that [merge] returns is a copy: an assignment made afterwards
    to a map that existed before the call does not show in the result, and
    an assignment to the result does not show in any map that existed
    before the call. *)
Theorem merge_result_is_a_copy (h : mheap) (envs : list gomap) (env : gomap)
    (k v : string) :
  Forall (fun env => allocated h env = true) envs ->
  allocated h env = true ->
  exists (l : loc) (h' : mheap),
    merge range_order envs h = (Ok (Some l), h') /\
    contents (map_assign env k v h').2 (Some l) = contents h' (Some l) /\
    contents (map_assign (Some l) k v h').2 env = contents h env.
Proof using range_order_perm.
  intros Hall Henv. eexists _, _. split; [by apply merge_spec|].
  pose proof (fresh_unallocated h) as Hf.
  pose proof (allocated_ne_fresh h _ env Hf Henv) as Hne.
  split.
  - destruct env as [a|]; simpl; [|done].
    rewrite lookup_insert_ne by congruence. by rewrite lookup_insert_eq.
  - simpl. rewrite insert_insert_eq. by apply allocated_contents_insert.
Qed.

Lemma allocated_insert (h : mheap) (l : loc) (t : table) (env : gomap) :
  allocated h env = true -> allocated (<[l := t]> h) env = true.
Proof.
  destruct env as [a|]; simpl; [|done].
  destruct (decide (a = l)) as [->|Hne].
  - by rewrite lookup_insert_eq.
  - by rewrite lookup_insert_ne.
Qed.

Lemma merged_table_insert (h : mheap) (l : loc) (t : table) (envs : list gomap) :
  h !! l = None ->
  Forall (fun env => allocated h env = true) envs ->
  merged_table (<[l := t]> h) envs = merged_table h envs.
Proof.
  intros Hl. induction envs as [|env envs IH] using rev_ind; intros Hall; [done|].
  apply Forall_app in Hall as [Hall Henv]. rewrite Forall_singleton in Henv.
  rewrite !merged_table_snoc, IH by done.
  by rewrite allocated_contents_insert.
Qed.

(** X3. [merge] composes: merging some maps and then the result with further
    maps gives a map with the entries of merging all of them at once. *)
Theorem merge_in_two_calls (h : mheap) (envs1 envs2 : list gomap) :
  Forall (fun env => allocated h env = true) (envs1 ++ envs2) ->
  exists (l1 l2 l : loc) (h1 h2 h' : mheap),
    merge range_order envs1 h = (Ok (Some l1), h1) /\
    merge range_order (Some l1 :: envs2) h1 = (Ok (Some l2), h2) /\
    merge range_order (envs1 ++ envs2) h = (Ok (Some l), h') /\
    l2 <> l1 /\
    contents h2 (Some l2) = contents h' (Some l).
Proof using range_order_perm.
  intros Hall. pose proof Hall as Hall'.
  apply Forall_app in Hall' as [Hall1 Hall2].
  pose proof (fresh_unallocated h) as Hf.
  set (l1 := fresh (dom h)) in *.
  set (h1 := <[l1 := merged_table h envs1]> h).
  assert (Hall3 : Forall (fun env => allocated h1 env = true) (Some l1 :: envs2)).
  { constructor.
    - simpl. unfold h1. by rewrite lookup_insert_eq.
    - eapply Forall_impl; [exact Hall2|]. intros env. apply allocated_insert. }
  eexists l1, (fresh (dom h1)), l1, h1, _, _.
  split; [by apply merge_spec|]. split; [by apply merge_spec|].
  split; [by apply merge_spec|]. split.
  - intros Heq. pose proof (fresh_unallocated h1) as Hf1. rewrite Heq in Hf1.
    unfold h1 in Hf1. by rewrite lookup_insert_eq in Hf1.
  - simpl. rewrite !lookup_insert_eq. simpl.
    change (Some l1 :: envs2) with ([Some l1] ++ envs2).
    rewrite !merged_table_app. unfold h1 at 1.
    rewrite merged_table_insert by done. f_equal.
    unfold merged_table at 1. simpl. unfold h1. rewrite lookup_insert_eq. simpl.
    by rewrite (right_id_L ∅ (∪)).
Qed.

(** X4. The small cases: [merge()] with no argument returns a new empty map;
    [merge(A)] returns a copy of A at another address; merging A with
    itself or with nil maps gives the entries of A. *)
Theorem merge_small_cases (h : mheap) (A : gomap) :
  allocated h A = true ->
  (exists (l : loc) (h' : mheap),
      merge range_order [] h = (Ok (Some l), h') /\ h' !! l = Some ∅) /\
  (exists (l : loc) (h' : mheap),
      merge range_order [A] h = (Ok (Some l), h') /\
      Some l <> A /\ contents h' (Some l) = contents h A) /\
  (exists (l : loc) (h' : mheap),
      merge range_order [A; A] h = (Ok (Some l), h') /\
      contents h' (Some l) = contents h A) /\
  (exists (l : loc) (h' : mheap),
      merge range_order [None; A; None] h = (Ok (Some l), h') /\
      contents h' (Some l) = contents h A).
Proof using range_order_perm.
  intros HA. pose proof (fresh_unallocated h) as Hf.
  split; [|split; [|split]]; eexists _, _.
  - split; [by apply merge_spec|]. by rewrite lookup_insert_eq.
  - split; [apply merge_spec; by repeat constructor|]. split.
    + intros Heq. by apply (allocated_ne_fresh h _ A Hf HA).
    + simpl. rewrite lookup_insert_eq. unfold merged_table. simpl.
      by rewrite (right_id_L ∅ (∪)).
  - split; [apply merge_spec; by repeat constructor|].
    simpl. rewrite lookup_insert_eq. unfold merged_table. simpl.
    rewrite (right_id_L ∅ (∪)). apply (idemp (∪)).
  - split; [apply merge_spec; by repeat constructor|].
    simpl. rewrite lookup_insert_eq. unfold merged_table. simpl.
    by rewrite !(left_id_L ∅ (∪)), ?(right_id_L ∅ (∪)).
Qed.

(** X6. [Env] and [Labels] panic exactly when the app or the process is a nil
    pointer, and then no map has been made. *)
Theorem Env_panics_on_nil_only (h : mheap) (app : option App)
    (process : option Process) :
  (forall a, app = Some a ->
     allocated h (App_Env a) = true /\ allocated h (App_Labels a) = true) ->
  (forall p, process = Some p ->
     allocated h (Process_Env p) = true /\ allocated h (Process_Labels p) = true) ->
  match app, process with
  | Some _, Some _ =>
      exists l1 l2 h1 h2,
        Env range_order app process h = (Ok (Some l1), h1) /\
        Labels range_order app process h = (Ok (Some l2), h2)
  | _, _ =>
      Env range_order app process h
      = (Panic "invalid memory address or nil pointer dereference", h) /\
      Labels range_order app process h
      = (Panic "invalid memory address or nil pointer dereference", h)
  end.
Proof using range_order_perm.
  intros Ha Hp. destruct app as [a|], process as [p|]; try done.
  destruct (Ha a eq_refl) as [Ha1 Ha2]. destruct (Hp p eq_refl) as [Hp1 Hp2].
  eexists _, _, _, _. split.
  - unfold Env. simpl. apply (merge_spec _ range_order_perm).
    constructor; [exact Ha1|]. constructor; [exact Hp1|]. constructor.
  - unfold Labels. simpl. apply (merge_spec _ range_order_perm).
    constructor; [exact Ha2|]. constructor; [exact Hp2|]. constructor.
Qed.

End MergeMore.

(** X5. The order in which [range] visits the entries does not show: two runs
    of [merge] on the same maps give the same map with the same entries,
    whatever the two orders. *)
Theorem merge_order_independent (order1 order2 : table -> list (string * string))
    (h : mheap) (envs : list gomap) :
  (forall t, order1 t ≡ₚ map_to_list t) ->
  (forall t, order2 t ≡ₚ map_to_list t) ->
  Forall (fun env => allocated h env = true) envs ->
  merge order1 envs h = merge order2 envs h.
Proof.
  intros H1 H2 Hall. by rewrite (merge_spec order1 H1), (merge_spec order2 H2).
Qed.

Lemma merge_last_wins_witness :
  exists (l : loc) (h' : mheap),
    merge map_to_list [Some 0; None; Some 1; Some 0] example_heap = (Ok (Some l), h') /\
    example_heap !! l = None /\
    forall k v,
      contents h' (Some l) !! k = Some v <->
      exists i env,
        [Some 0; None; Some 1; Some 0] !! i = Some env /\
        contents example_heap env !! k = Some v /\
        forall j env', i < j -> [Some 0; None; Some 1; Some 0] !! j = Some env' ->
          contents example_heap env' !! k = None.
Proof.
  apply (merge_last_wins map_to_list (fun t => Permutation_refl _) example_heap
           [Some 0; None; Some 1; Some 0]).
  repeat constructor.
Defined.

Lemma merge_result_is_a_copy_witness :
  exists (l : loc) (h' : mheap),
    merge map_to_list [Some 0; Some 1] example_heap = (Ok (Some l), h') /\
    contents (map_assign (Some 0) "PORT" "9090" h').2 (Some l) = contents h' (Some l) /\
    contents (map_assign (Some l) "PORT" "9090" h').2 (Some 0)
    = contents example_heap (Some 0).
Proof.
  apply (merge_result_is_a_copy map_to_list (fun t => Permutation_refl _) example_heap
           [Some 0; Some 1] (Some 0) "PORT" "9090").
  - repeat constructor.
  - reflexivity.
Defined.

Lemma merge_in_two_calls_witness :
  exists (l1 l2 l : loc) (h1 h2 h' : mheap),
    merge map_to_list [Some 0] example_heap = (Ok (Some l1), h1) /\
    merge map_to_list [Some l1; Some 1; None] h1 = (Ok (Some l2), h2) /\
    merge map_to_list ([Some 0] ++ [Some 1; None]) example_heap = (Ok (Some l), h') /\
    l2 <> l1 /\
    contents h2 (Some l2) = contents h' (Some l).
Proof.
  apply (merge_in_two_calls map_to_list (fun t => Permutation_refl _) example_heap
           [Some 0] [Some 1; None]).
  repeat constructor.
Defined.

Lemma merge_small_cases_witness :
  (exists (l : loc) (h' : mheap),
      merge map_to_list [] example_heap = (Ok (Some l), h') /\ h' !! l = Some ∅) /\
  (exists (l : loc) (h' : mheap),
      merge map_to_list [Some 1] example_heap = (Ok (Some l), h') /\
      Some l <> Some 1 /\ contents h' (Some l) = contents example_heap (Some 1)) /\
  (exists (l : loc) (h' : mheap),
      merge map_to_list [Some 1; Some 1] example_heap = (Ok (Some l), h') /\
      contents h' (Some l) = contents example_heap (Some 1)) /\
  (exists (l : loc) (h' : mheap),
      merge map_to_list [None; Some 1; None] example_heap = (Ok (Some l), h') /\
      contents h' (Some l) = contents example_heap (Some 1)).
Proof.
  apply (merge_small_cases map_to_list (fun t => Permutation_refl _) example_heap
           (Some 1)).
  reflexivity.
Defined.

Lemma Env_panics_on_nil_only_witness :
  (exists l1 l2 h1 h2,
      Env map_to_list (Some example_app) (Some example_process) example_heap
      = (Ok (Some l1), h1) /\
      Labels map_to_list (Some example_app) (Some example_process) example_heap
      = (Ok (Some l2), h2)) /\
  Env map_to_list None (Some example_process) example_heap
  = (Panic "invalid memory address or nil pointer dereference", example_heap) /\
  Labels map_to_list None (Some example_process) example_heap
  = (Panic "invalid memory address or nil pointer dereference", example_heap).
Proof.
  split.
  - apply (Env_panics_on_nil_only map_to_list (fun t => Permutation_refl _)
             example_heap (Some example_app) (Some example_process)).
    + intros a [= <-]. split; reflexivity.
    + intros p [= <-]. split; reflexivity.
  - apply (Env_panics_on_nil_only map_to_list (fun t => Permutation_refl _)
             example_heap None (Some example_process)).
    + intros a [=].
    + intros p [= <-]. split; reflexivity.
Defined.

Lemma merge_order_independent_witness :
  merge map_to_list [Some 0; Some 1] example_heap
  = merge (fun t => reverse (map_to_list t)) [Some 0; Some 1] example_heap.
Proof.
  apply (merge_order_independent map_to_list (fun t => reverse (map_to_list t))
           example_heap [Some 0; Some 1]).
  - intros t. reflexivity.
  - intros t. apply reverse_Permutation.
  - repeat constructor.
Defined.

(** ** The stream after any history of calls *)

Lemma called_Done_until (calls : list call) : called_Done (until_Done calls) = false.
Proof.
  induction calls as [|c calls IH]; [done|]. simpl.
  destruct (is_Done c) eqn:Hc; [done|]. simpl. by rewrite Hc.
Qed.

Section StreamMore.

Context {W : Type} `{!Writer W}.
Variable quote : string -> string.

Lemma steps_closed_warnings (d : loc) (calls : list call) (a : shape W) :
  sh_closed a = true ->
  warnings (sh_trace (steps quote d calls a))
  = warnings (sh_trace a) ++
    map (fun _ => "Publish called on a finalized stream") (published calls).
Proof.
  revert a. induction calls as [|c calls IH]; intros a Ha.
  { simpl. by rewrite (right_id_L [] (++)). }
  change (steps quote d (c :: calls) a) with (steps quote d calls (step quote d c a)).
  rewrite IH by (destruct c; simpl; by rewrite ?Ha).
  destruct c; simpl; rewrite ?Ha; simpl; rewrite ?warnings_app; simpl;
    by rewrite <-?(assoc_L (++)), ?(right_id_L [] (++)).
Qed.

(** Writes, writer and warnings after any history on a stream that is
    open at its start. *)
Lemma steps_any (d : loc) (calls : list call) (a : shape W) :
  sh_closed a = false ->
  writes (sh_trace (steps quote d calls a))
  = writes (sh_trace a) ++ map (record quote) (published (until_Done calls)) /\
  sh_w (steps quote d calls a)
  = foldl (fun x p => (Write x p).1) (sh_w a)
      (map (record quote) (published (until_Done calls))) /\
  warnings (sh_trace (steps quote d calls a))
  = warnings (sh_trace a) ++
    map (fun _ => "Publish called on a finalized stream") (published (after_Done calls)).
Proof.
  revert a. induction calls as [|c calls IH]; intros a Ha.
  { simpl. by rewrite !(right_id_L [] (++)). }
  change (steps quote d (c :: calls) a) with (steps quote d calls (step quote d c a)).
  destruct c as [ctx status|e| | |].
  - destruct (IH (step quote d (CallPublish ctx status) a)) as (H1 & H2 & H3).
    { simpl. by rewrite Ha. }
    rewrite H1, H2, H3. simpl. rewrite Ha. simpl.
    rewrite writes_app, warnings_app. simpl.
    by rewrite <-!(assoc_L (++)), ?(right_id_L [] (++)).
  - destruct (steps_closed quote d calls (step quote d (CallDone e) a))
      as (_ & _ & H2 & H1).
    { simpl. by rewrite Ha. }
    rewrite H1, H2, steps_closed_warnings by (simpl; by rewrite Ha).
    simpl. rewrite Ha. simpl. rewrite writes_app, warnings_app. simpl.
    by rewrite !(right_id_L [] (++)).
  - destruct (IH (step quote d CallErr a)) as (H1 & H2 & H3); [done|].
    rewrite H1, H2, H3. simpl. rewrite writes_app, warnings_app. simpl.
    by rewrite ?(right_id_L [] (++)).
  - destruct (IH (step quote d CallWait a)) as (H1 & H2 & H3); [done|].
    rewrite H1, H2, H3. simpl. rewrite writes_app, warnings_app. simpl.
    by rewrite ?(right_id_L [] (++)).
  - destruct (IH (step quote d CallAwait a)) as (H1 & H2 & H3); [done|].
    rewrite H1, H2, H3. simpl. rewrite Ha. simpl.
    rewrite writes_app, warnings_app. simpl.
    by rewrite ?(right_id_L [] (++)).
Qed.

(** X7. Whatever the history of calls, [Done] among them or not: the writer
    has been handed the records of the statuses published before the first
    [Done], in call order, and nothing else, and it is in the state that
    these [Write] calls, one after the other, took it to. No other method
    reaches the writer, and [Done] writes no closing record. *)
Theorem writer_after_any_history (sink : W) (cs : gmap loc chan) (calls : list call) :
  let st := run quote calls (NewJSONMessageStream sink cs) in
  writes (trace st) = map (record quote) (published (until_Done calls)) /\
  w (self st) = foldl (fun x p => (Write x p).1) sink (writes (trace st)).
Proof.
  cbv zeta. rewrite New_shape, run_shape. simpl.
  destruct (steps_any (fresh (dom cs)) calls
    {| sh_closed := false; sh_err := None; sh_w := sink; sh_trace := [] |} eq_refl)
    as (H1 & H2 & _).
  by rewrite H1, H2.
Qed.

(** X8. Whatever the history of calls: the warning about a finalized stream
    has been logged once for every [Publish] made after the first [Done],
    and never for another call. *)
Theorem warnings_after_any_history (sink : W) (cs : gmap loc chan) (calls : list call) :
  warnings (trace (run quote calls (NewJSONMessageStream sink cs)))
  = map (fun _ => "Publish called on a finalized stream") (published (after_Done calls)).
Proof.
  rewrite New_shape, run_shape. simpl.
  destruct (steps_any (fresh (dom cs)) calls
    {| sh_closed := false; sh_err := None; sh_w := sink; sh_trace := [] |} eq_refl)
    as (_ & _ & H3).
  by rewrite H3.
Qed.

Lemma steps_first_Done (d : loc) (calls : list call) (a : shape W) :
  sh_closed a = false ->
  sh_err a = None ->
  sh_err (steps quote d calls a) = first_Done calls.
Proof.
  revert a. induction calls as [|c calls IH]; intros a Ha He; [done|].
  change (steps quote d (c :: calls) a) with (steps quote d calls (step quote d c a)).
  destruct c as [ctx status|e| | |].
  - apply IH; simpl; by rewrite ?Ha.
  - destruct (steps_closed quote d calls (step quote d (CallDone e) a))
      as (_ & H2 & _).
    { simpl. by rewrite Ha. }
    rewrite H2. simpl. by rewrite Ha.
  - by apply IH.
  - by apply IH.
  - apply IH; simpl; by rewrite ?Ha.
Qed.

(** X9. What every history of calls keeps: the mutex is free when a call is
    back (also when it panicked), the field [done] holds the channel made
    with the stream, that channel has capacity 1 and nothing is ever in its
    buffer, it is closed exactly when [Done] has been called, the error
    recorded is the one given to the first [Done] (nil before it, and never
    the one of a later [Done]), and every other channel of the program is
    as it was. *)
Theorem stream_invariant (sink : W) (cs : gmap loc chan) (calls : list call) :
  let st0 := NewJSONMessageStream sink cs in
  let st := run quote calls st0 in
  cs !! done (self st0) = None /\
  done (self st) = done (self st0) /\
  Mutex (self st) = false /\
  chans st !! done (self st)
  = Some {| chan_cap := 1; chan_buf := []; chan_closed := called_Done calls |} /\
  err (self st) = first_Done calls /\
  forall c, c <> done (self st) -> chans st !! c = cs !! c.
Proof.
  cbv zeta. rewrite New_shape, run_shape. simpl.
  split; [apply not_elem_of_dom, is_fresh|]. split; [done|]. split; [done|].
  split; [|split].
  - rewrite lookup_insert_eq. by rewrite steps_closed_called_Done.
  - by apply steps_first_Done.
  - intros c Hc. by rewrite lookup_insert_ne.
Qed.

(** X10. [Publish], [Err] and [Wait] return normally from every world: they do
    not take the mutex, so they return also while a [Done] holds it, and
    they leave the mutex, the recorded error and the field [done] as they
    are. *)
Theorem Publish_Err_Wait_always_return (st : world W) (ctx : Context)
    (status : Status) :
  (exists r, (Publish quote ctx status st).1 = Ok r) /\
  (Err st).1 = Ok (err (self st)) /\
  (Wait st).1 = Ok (done (self st)) /\
  Mutex (self (Publish quote ctx status st).2) = Mutex (self st) /\
  err (self (Publish quote ctx status st).2) = err (self st) /\
  done (self (Publish quote ctx status st).2) = done (self st) /\
  self (Err st).2 = self st /\
  self (Wait st).2 = self st.
Proof.
  destruct st as [chs [mu d0 e0 x] tr].
  unfold Publish, Err, Wait, Publish_prog, Err_prog, Wait_prog, run_prog, load_done,
    load_err, try_recv, Warn, Encode, log, set_self, set_chans, set_w. simpl.
  destruct (chs !! d0) as [ch|]; [destruct (chan_ready ch)|]; simpl;
    repeat split; try done; by eexists.
Qed.

(** X11. [Done] from every world in which the channel of the stream exists: it
    waits when the mutex is held and changes nothing; it panics when the
    channel is closed already, leaving the recorded error and the channel
    as they are and the mutex free; otherwise it returns normally with the
    channel closed, the error recorded and the mutex free. *)
Theorem Done_outcome (st : world W) (ch : chan) (e : error) :
  chans st !! done (self st) = Some ch ->
  if Mutex (self st) then Done e st = (Block, st)
  else if chan_closed ch then
    (Done e st).1 = Panic "close of closed channel" /\
    err (self (Done e st).2) = err (self st) /\
    chans (Done e st).2 = chans st /\
    Mutex (self (Done e st).2) = false
  else
    (Done e st).1 = Ok tt /\
    err (self (Done e st).2) = e /\
    chans (Done e st).2
    = <[done (self st) := {| chan_cap := chan_cap ch; chan_buf := chan_buf ch;
                             chan_closed := true |}]> (chans st) /\
    Mutex (self (Done e st).2) = false.
Proof.
  destruct st as [chs [mu d0 e0 x] tr]. simpl. intros Hl.
  unfold Done, Done_prog, run_prog, with_defer, load_done, store_err, chan_close,
    Lock, Unlock, log, set_self, set_chans, set_Mutex, set_err. simpl.
  destruct mu; [done|]. simpl. rewrite Hl.
  by destruct (chan_closed ch).
Qed.

(** *** Two streams *)

Lemma step_core (d d' : loc) (c : call) (a a' : shape W) :
  core a = core a' -> core (step quote d c a) = core (step quote d' c a').
Proof.
  unfold core. intros [= H1 H2 H3].
  destruct c; simpl; rewrite <-?H1, <-?H2, <-?H3; by destruct (sh_closed a).
Qed.

Lemma steps_core (d d' : loc) (calls : list call) (a a' : shape W) :
  core a = core a' -> core (steps quote d calls a) = core (steps quote d' calls a').
Proof.
  revert a a'. induction calls as [|c calls IH]; intros a a' Hc; [done|].
  apply IH. by apply step_core.
Qed.

Lemma exec_on_first (cs : gmap loc chan) (d1 d2 : loc) (a1 a2 : shape W)
    (tr : list event) (c : call) :
  d1 <> d2 ->
  exec_on quote (pair_of cs d1 d2 a1 a2 tr) (true, c)
  = pair_of cs d1 d2 (step quote d1 c (retrace tr a1)) a2
      (sh_trace (step quote d1 c (retrace tr a1))).
Proof.
  intros Hne. unfold exec_on, pair_of. simpl.
  rewrite insert_insert_ne by done.
  change {| chans := _; self := _; trace := tr |}
    with (world_of
            (<[d2 := {| chan_cap := 1; chan_buf := []; chan_closed := sh_closed a2 |}]> cs)
            d1 (retrace tr a1)).
  rewrite exec_shape. unfold world_of. simpl.
  by rewrite insert_insert_ne.
Qed.

Lemma exec_on_second (cs : gmap loc chan) (d1 d2 : loc) (a1 a2 : shape W)
    (tr : list event) (c : call) :
  exec_on quote (pair_of cs d1 d2 a1 a2 tr) (false, c)
  = pair_of cs d1 d2 a1 (step quote d2 c (retrace tr a2))
      (sh_trace (step quote d2 c (retrace tr a2))).
Proof.
  unfold exec_on, pair_of. simpl.
  change {| chans := _; self := _; trace := tr |}
    with (world_of
            (<[d1 := {| chan_cap := 1; chan_buf := []; chan_closed := sh_closed a1 |}]> cs)
            d2 (retrace tr a2)).
  by rewrite exec_shape.
Qed.

Lemma calls_on_snoc (b : bool) (hist : list (bool * call)) (c : bool * call) :
  calls_on b (hist ++ [c])
  = calls_on b hist ++ (if Bool.eqb c.1 b then [c.2] else []).
Proof. unfold calls_on. rewrite omap_app. simpl. by destruct (Bool.eqb c.1 b). Qed.

Lemma steps_snoc (d : loc) (calls : list call) (c : call) (a : shape W) :
  steps quote d (calls ++ [c]) a = step quote d c (steps quote d calls a).
Proof. unfold steps. by rewrite foldl_app. Qed.

Lemma run_on_pair (sink1 sink2 : W) (cs : gmap loc chan) (hist : list (bool * call)) :
  let d1 := fresh (dom cs) in
  let d2 := fresh (dom (<[d1 := make_chan 1]> cs)) in
  exists a1 a2 tr,
    run_on quote hist (new_two_streams sink1 sink2 cs) = pair_of cs d1 d2 a1 a2 tr /\
    core a1
    = core (steps quote d1 (calls_on true hist)
              {| sh_closed := false; sh_err := None; sh_w := sink1; sh_trace := [] |}) /\
    core a2
    = core (steps quote d2 (calls_on false hist)
              {| sh_closed := false; sh_err := None; sh_w := sink2; sh_trace := [] |}).
Proof.
  cbv zeta.
  assert (Hne : fresh (dom cs) <> fresh (dom (<[fresh (dom cs) := make_chan 1]> cs))).
  { intros Heq.
    pose proof (is_fresh (dom (<[fresh (dom cs) := make_chan 1]> cs))) as Hf.
    rewrite <-Heq in Hf. apply Hf. apply elem_of_dom. by rewrite lookup_insert_eq. }
  induction hist as [|[b c] hist IH] using rev_ind.
  - by exists {| sh_closed := false; sh_err := None; sh_w := sink1; sh_trace := [] |},
              {| sh_closed := false; sh_err := None; sh_w := sink2; sh_trace := [] |}, [].
  - destruct IH as (a1 & a2 & tr & Hrun & H1 & H2).
    unfold run_on in *. rewrite foldl_app. simpl. rewrite Hrun.
    rewrite !calls_on_snoc. simpl. destruct b; simpl.
    + rewrite exec_on_first by done. eexists _, _, _. split; [done|].
      rewrite (right_id_L [] (++)), steps_snoc. split; [|done].
      by apply step_core.
    + rewrite exec_on_second. eexists _, _, _. split; [done|].
      rewrite (right_id_L [] (++)), steps_snoc. split; [done|].
      by apply step_core.
Qed.

(** X12. Two streams made one after the other have different channels, and
    calls on the one never show on the other: after any mixed history of
    calls on the two, each stream and its channel are as they are when the
    calls made on it are made on it alone. *)
Theorem two_streams_do_not_interfere (sink1 sink2 : W) (cs : gmap loc chan)
    (hist : list (bool * call)) :
  let alone1 := NewJSONMessageStream sink1 cs in
  let alone2 := NewJSONMessageStream sink2 (chans alone1) in
  let t := run_on quote hist (new_two_streams sink1 sink2 cs) in
  let st1 := run quote (calls_on true hist) alone1 in
  let st2 := run quote (calls_on false hist) alone2 in
  done (ts_first t) <> done (ts_second t) /\
  ts_first t = self st1 /\
  ts_second t = self st2 /\
  ts_chans t !! done (ts_first t) = chans st1 !! done (self st1) /\
  ts_chans t !! done (ts_second t) = chans st2 !! done (self st2).
Proof.
  cbv zeta.
  destruct (run_on_pair sink1 sink2 cs hist) as (a1 & a2 & tr & Hrun & H1 & H2).
  rewrite Hrun. rewrite !New_shape. simpl.
  change (<[fresh (dom cs) := make_chan 1]> cs)
    with (chans (world_of cs (fresh (dom cs))
            {| sh_closed := false; sh_err := None; sh_w := sink1; sh_trace := [] |})).
  rewrite !run_shape. simpl.
  set (d1 := fresh (dom cs)) in *.
  set (d2 := fresh (dom (<[d1 := make_chan 1]> cs))) in *.
  assert (Hne : d1 <> d2).
  { intros Heq. pose proof (is_fresh (dom (<[d1 := make_chan 1]> cs))) as Hf.
    fold d2 in Hf. rewrite <-Heq in Hf. apply Hf. apply elem_of_dom.
    by rewrite lookup_insert_eq. }
  unfold core in H1, H2. injection H1 as K1 K2 K3. injection H2 as L1 L2 L3.
  split; [done|].
  rewrite lookup_insert_ne, !lookup_insert_eq by done.
  by rewrite K1, K2, K3, L1, L2, L3.
Qed.

End StreamMore.

(** ** Two goroutines in [Done] *)

Ltac goroutine_step :=
  unfold qdone_at, qworld_at, consumer_at, cworld_at, done_at, gstep, run_deferred,
    Done_prog, consumer_prog, load_done, load_err, store_err, chan_close, chan_recv,
    Lock, Unlock, log, set_self, set_chans, set_Mutex, set_err, chan_ready,
    chan_after_recv;
  simpl;
  rewrite ?lookup_insert_eq; simpl;
  rewrite ?insert_insert_eq, ?(right_id_L [] (++)); simpl;
  try done.

Section TwoDoneSteps.

Context {W : Type}.
Variables (e1 e2 e0 : error) (d : loc) (cs : gmap loc chan) (w0 : W).

#[local] Abbreviation qdone_at' := (qdone_at (W:=W) d).
#[local] Abbreviation qworld_at' := (qworld_at e1 e2 e0 d cs w0).
#[local] Abbreviation qconfig' := (qconfig e1 e2 e0 d cs w0).
#[local] Abbreviation qanext' := (qanext d).

Lemma qstep_first (ph1 ph2 : qphase) (tr : list event) :
  qinv ph1 ph2 = true ->
  gstep (qdone_at' e1 ph1) (qworld_at' ph1 ph2 tr)
  = (qdone_at' e1 (qnext (qholds ph2) (qclosed ph2) ph1),
     qworld_at' (qnext (qholds ph2) (qclosed ph2) ph1) ph2
       (tr ++ qevents d (qholds ph2) ph1)).
Proof.
  destruct ph1 as [[]| | |], ph2 as [[]| | |]; intros Hi; vm_compute in Hi;
    try discriminate Hi; by goroutine_step.
Qed.

Lemma qstep_second (ph1 ph2 : qphase) (tr : list event) :
  qinv ph1 ph2 = true ->
  gstep (qdone_at' e2 ph2) (qworld_at' ph1 ph2 tr)
  = (qdone_at' e2 (qnext (qholds ph1) (qclosed ph1) ph2),
     qworld_at' ph1 (qnext (qholds ph1) (qclosed ph1) ph2)
       (tr ++ qevents d (qholds ph1) ph2)).
Proof.
  destruct ph1 as [[]| | |], ph2 as [[]| | |]; intros Hi; vm_compute in Hi;
    try discriminate Hi; by goroutine_step.
Qed.

Lemma qinv_next (b : bool) (c : qphase * qphase * list event) :
  qinv c.1.1 c.1.2 = true -> qinv (qanext' b c).1.1 (qanext' b c).1.2 = true.
Proof.
  destruct c as [[ph1 ph2] tr], b; simpl;
    destruct ph1 as [[]| | |], ph2 as [[]| | |]; by vm_compute.
Qed.

Lemma interleave_qconfig (schedule : list bool) (c : qphase * qphase * list event) :
  qinv c.1.1 c.1.2 = true ->
  interleave schedule (qconfig' c)
  = qconfig' (foldl (fun c b => qanext' b c) c schedule) /\
  qinv (foldl (fun c b => qanext' b c) c schedule).1.1
       (foldl (fun c b => qanext' b c) c schedule).1.2 = true.
Proof.
  revert c. induction schedule as [|b schedule IH]; intros c Hi; [done|].
  destruct (IH (qanext' b c) (qinv_next b c Hi)) as [IH1 IH2].
  split; [|exact IH2].
  unfold interleave in *. simpl. rewrite <-IH1. f_equal.
  destruct c as [[ph1 ph2] tr]. simpl in Hi.
  destruct b; unfold qconfig, qanext; simpl.
  - by rewrite qstep_first.
  - by rewrite qstep_second.
Qed.

End TwoDoneSteps.

Section ConsumerSteps.

Context {W : Type}.
Variables (e e0 : error) (d : loc) (cs : gmap loc chan) (w0 : W).

#[local] Abbreviation consumer_at' := (consumer_at (W:=W) e e0 d).
#[local] Abbreviation cworld_at' := (cworld_at e e0 d cs w0).
#[local] Abbreviation cconfig' := (cconfig e e0 d cs w0).
#[local] Abbreviation canext' := (canext d).

Lemma cstep_consumer (ph : cphase) (dph : dphase) (tr : list event) :
  gstep (consumer_at' ph) (cworld_at' dph tr)
  = (consumer_at' (cnext (closed_at dph) (stored_at dph) ph),
     cworld_at' dph (tr ++ cevents d (closed_at dph) ph)).
Proof. destruct ph as [| | |b|b], dph; by goroutine_step. Qed.

Lemma cstep_Done (dph : dphase) (tr : list event) :
  gstep (done_at (W:=W) e d dph) (cworld_at' dph tr)
  = (done_at e d (dnext dph), cworld_at' (dnext dph) (tr ++ devents d dph)).
Proof. destruct dph; by goroutine_step. Qed.

Lemma interleave_cconfig (schedule : list bool) (c : cphase * dphase * list event) :
  interleave schedule (cconfig' c) = cconfig' (foldl (fun c b => canext' b c) c schedule).
Proof.
  revert c. induction schedule as [|b schedule IH]; intros [[ph dph] tr]; [done|].
  unfold interleave in *. simpl. rewrite <-IH. f_equal.
  destruct b; unfold cconfig, canext; simpl.
  - by rewrite cstep_consumer.
  - by rewrite cstep_Done.
Qed.

Lemma cinv_foldl (schedule : list bool) (c : cphase * dphase * list event) :
  cinv c = true -> cinv (foldl (fun c b => canext' b c) c schedule) = true.
Proof.
  revert c. induction schedule as [|b schedule IH]; intros c Hc; [done|].
  simpl. apply IH. destruct c as [[ph dph] tr].
  destruct b, ph as [| | |[]|[]], dph; by vm_compute.
Qed.

Lemma cinv_after_foldl (schedule : list bool) (c : cphase * dphase * list event) :
  cinv_after c = true -> cinv_after (foldl (fun c b => canext' b c) c schedule) = true.
Proof.
  revert c. induction schedule as [|b schedule IH]; intros c Hc; [done|].
  simpl. apply IH. destruct c as [[ph dph] tr].
  destruct b, ph as [| | |[]|[]], dph; by vm_compute.
Qed.

End ConsumerSteps.

Section Concurrent.

Context {W : Type} `{!Writer W}.
Variable quote : string -> string.

(** X13. Two goroutines call [Done] on an open stream, with [e1] and with
    [e2], their operations interleaved by any schedule. When both are
    back, one call has returned normally and the other has panicked in
    [close]; the error recorded is the one of the call that returned, so
    the loser's error is lost; the channel is closed, the mutex is free
    (the deferred [Unlock] ran in the panic too) and the writer is as it
    was. Both outcomes happen. *)
Theorem Done_twice_interleaved (sink : W) (cs : gmap loc chan)
    (before : list call) (e1 e2 : error) :
  called_Done before = false ->
  let st := run quote before (NewJSONMessageStream sink cs) in
  let both := (Running (Done_prog e1) [], Running (Done_prog e2) [], st) in
  (forall (schedule : list bool) r1 r2,
     (interleave schedule both).1.1 = Finished r1 ->
     (interleave schedule both).1.2 = Finished r2 ->
     ready (interleave schedule both).2 (done (self st)) = true /\
     Mutex (self (interleave schedule both).2) = false /\
     w (self (interleave schedule both).2) = w (self st) /\
     ((r1 = Ok tt /\ r2 = Panic "close of closed channel" /\
       err (self (interleave schedule both).2) = e1) \/
      (r1 = Panic "close of closed channel" /\ r2 = Ok tt /\
       err (self (interleave schedule both).2) = e2))) /\
  (interleave (replicate 7 true ++ replicate 6 false) both).1
  = (Finished (Ok tt), Finished (Panic "close of closed channel")) /\
  (interleave (replicate 7 false ++ replicate 6 true) both).1
  = (Finished (Panic "close of closed channel"), Finished (Ok tt)).
Proof.
  intros Hb. cbv zeta. rewrite New_shape, !run_shape.
  destruct (steps_open quote (fresh (dom cs)) before
    {| sh_closed := false; sh_err := None; sh_w := sink; sh_trace := [] |}
    eq_refl Hb) as (H1 & _ & _).
  destruct (steps quote (fresh (dom cs)) before _) as [b e0 x tr].
  simpl in H1. subst b.
  change (Running (Done_prog e1) [], Running (Done_prog e2) [],
          world_of cs (fresh (dom cs))
            {| sh_closed := false; sh_err := e0; sh_w := x; sh_trace := tr |})
    with (qconfig e1 e2 e0 (fresh (dom cs)) cs x (QAt DStart, QAt DStart, tr)).
  split; [|split].
  - intros schedule.
    destruct (interleave_qconfig e1 e2 e0 (fresh (dom cs)) cs x schedule
                (QAt DStart, QAt DStart, tr) eq_refl) as [-> Hi].
    destruct (foldl _ _ schedule) as [[ph1 ph2] tr'].
    unfold qconfig. simpl in *. intros r1 r2 Hr1 Hr2.
    unfold ready. simpl. rewrite lookup_insert_eq. simpl.
    destruct ph1 as [[]| | |]; simpl in Hr1; try discriminate Hr1;
      destruct ph2 as [[]| | |]; simpl in Hr2; try discriminate Hr2;
      vm_compute in Hi; try discriminate Hi;
      injection Hr1 as <-; injection Hr2 as <-; simpl;
      (split; [done|]); (split; [done|]); (split; [done|]).
    + by left.
    + by right.
  - by rewrite (proj1 (interleave_qconfig e1 e2 e0 (fresh (dom cs)) cs x _
                       (QAt DStart, QAt DStart, tr) eq_refl)).
  - by rewrite (proj1 (interleave_qconfig e1 e2 e0 (fresh (dom cs)) cs x _
                       (QAt DStart, QAt DStart, tr) eq_refl)).
Qed.

(** X14. A consumer that waits on [Wait()] and then calls [Err()], beside a
    goroutine in [Done(e)] on an open stream, under any schedule. The
    consumer is back only when [Done] has closed the channel, and it has
    [e] or nil: [Done] closes the channel before it assigns [err], and a
    consumer that reads between the two has nil while the stream ends with
    [e] recorded. A consumer that starts when [Done] is back has [e]. *)
Theorem consumer_beside_Done (sink : W) (cs : gmap loc chan)
    (before : list call) (e : error) :
  called_Done before = false ->
  let st := run quote before (NewJSONMessageStream sink cs) in
  let both := (Running consumer_prog [], Running (Done_prog e) [], st) in
  (forall (schedule : list bool) r,
     (interleave schedule both).1.1 = Finished r ->
     ready (interleave schedule both).2 (done (self st)) = true /\
     (r = Ok e \/ r = Ok None)) /\
  (forall (schedule : list bool) r,
     (interleave (replicate 7 false ++ schedule) both).1.1 = Finished r ->
     r = Ok e) /\
  (interleave (replicate 4 false ++ replicate 4 true ++ replicate 3 false) both).1
  = (Finished (Ok None), Finished (Ok tt)) /\
  err (self (interleave (replicate 4 false ++ replicate 4 true ++ replicate 3 false)
               both).2) = e.
Proof.
  intros Hb. cbv zeta. rewrite New_shape, !run_shape.
  destruct (steps_open quote (fresh (dom cs)) before
    {| sh_closed := false; sh_err := None; sh_w := sink; sh_trace := [] |}
    eq_refl Hb) as (H1 & H2 & _).
  destruct (steps quote (fresh (dom cs)) before _) as [b e0 x tr].
  simpl in H1, H2. subst b e0.
  change (Running consumer_prog [], Running (Done_prog e) [],
          world_of cs (fresh (dom cs))
            {| sh_closed := false; sh_err := None; sh_w := x; sh_trace := tr |})
    with (cconfig e None (fresh (dom cs)) cs x (CStart, DStart, tr)).
  split; [|split; [|split]].
  - intros schedule r. rewrite interleave_cconfig.
    pose proof (cinv_foldl (fresh (dom cs)) schedule (CStart, DStart, tr) eq_refl)
      as Hi.
    destruct (foldl _ _ schedule) as [[ph dph] tr'].
    unfold cconfig, ready. simpl. rewrite lookup_insert_eq. simpl. intros Hr.
    destruct ph as [| | |seen|seen]; simpl in Hr; try discriminate Hr.
    injection Hr as <-. unfold cinv in Hi. simpl in Hi.
    apply andb_true_iff in Hi as [Hi _]. split; [exact Hi|].
    destruct seen; [by left|by right].
  - intros schedule r. unfold interleave. rewrite foldl_app.
    fold (interleave (St:=world W) (A:=error) (B:=unit) (replicate 7 false)
            (cconfig e None (fresh (dom cs)) cs x (CStart, DStart, tr))).
    rewrite interleave_cconfig.
    fold (interleave (St:=world W) (A:=error) (B:=unit) schedule
            (cconfig e None (fresh (dom cs)) cs x
               (foldl (fun c b => canext (fresh (dom cs)) b c) (CStart, DStart, tr)
                  (replicate 7 false)))).
    rewrite interleave_cconfig.
    pose proof (cinv_after_foldl (fresh (dom cs)) schedule
                  (foldl (fun c b => canext (fresh (dom cs)) b c) (CStart, DStart, tr)
                     (replicate 7 false)) eq_refl) as Hi.
    destruct (foldl _ (foldl _ _ (replicate 7 false)) schedule) as [[ph dph] tr'].
    unfold cconfig. simpl. intros Hr.
    destruct ph as [| | |seen|seen]; simpl in Hr; try discriminate Hr.
    injection Hr as <-. unfold cinv_after in Hi. simpl in Hi.
    apply andb_true_iff in Hi as [_ Hi]. by rewrite Hi.
  - by rewrite interleave_cconfig.
  - by rewrite interleave_cconfig.
Qed.

End Concurrent.

Lemma stream_invariant_witness :
  let st := run quote_plain
    [CallPublish tt creating_web; CallDone None; CallDone (Some "image pull failed")]
    buffer_stream in
  Mutex (self st) = false /\
  err (self st) = None /\
  chans st !! 7 = (∅ : gmap loc chan) !! 7.
Proof.
  destruct (stream_invariant quote_plain "" ∅
    [CallPublish tt creating_web; CallDone None; CallDone (Some "image pull failed")])
    as (_ & _ & H3 & _ & H5 & H6).
  split; [exact H3|]. split; [exact H5|]. apply H6. discriminate.
Defined.

Lemma Done_outcome_witness :
  (Done (Some "image pull failed") buffer_stream).1 = Ok tt /\
  err (self (Done (Some "image pull failed") buffer_stream).2)
  = Some "image pull failed" /\
  chans (Done (Some "image pull failed") buffer_stream).2
  = <[done (self buffer_stream) :=
        {| chan_cap := 1; chan_buf := []; chan_closed := true |}]>
      (chans buffer_stream) /\
  Mutex (self (Done (Some "image pull failed") buffer_stream).2) = false.
Proof.
  apply (Done_outcome buffer_stream (make_chan 1) (Some "image pull failed")).
  reflexivity.
Defined.

Lemma Done_twice_interleaved_witness :
  let st := run quote_plain [CallPublish tt creating_web] buffer_stream in
  let s' := interleave
    [true; false; false; true; true; false; true; true; true; true; false; false;
     false; false; false; false]
    (Running (Done_prog (Some "image pull failed")) [], Running (Done_prog None) [],
     st) in
  exists r1 r2,
    s'.1.1 = Finished r1 /\
    s'.1.2 = Finished r2 /\
    ready s'.2 (done (self st)) = true /\
    Mutex (self s'.2) = false /\
    w (self s'.2) = w (self st) /\
    ((r1 = Ok tt /\ r2 = Panic "close of closed channel" /\
      err (self s'.2) = Some "image pull failed") \/
     (r1 = Panic "close of closed channel" /\ r2 = Ok tt /\
      err (self s'.2) = None)).
Proof.
  cbv zeta. exists (Ok tt), (Panic "close of closed channel").
  split; [reflexivity|]. split; [reflexivity|].
  apply (proj1 (Done_twice_interleaved quote_plain "" ∅ [CallPublish tt creating_web]
                  (Some "image pull failed") None eq_refl)); reflexivity.
Defined.

Lemma consumer_beside_Done_witness :
  let st := run quote_plain [CallPublish tt creating_web] buffer_stream in
  let s' := interleave
    [true; true; false; false; false; true; false; false; true; false; true; true;
     false]
    (Running consumer_prog [], Running (Done_prog (Some "image pull failed")) [],
     st) in
  exists r,
    s'.1.1 = Finished r /\
    ready s'.2 (done (self st)) = true /\
    (r = Ok (Some "image pull failed") \/ r = Ok None).
Proof.
  cbv zeta. exists (Ok (Some "image pull failed")). split; [reflexivity|].
  apply (proj1 (consumer_beside_Done quote_plain "" ∅ [CallPublish tt creating_web]
                  (Some "image pull failed") eq_refl)); reflexivity.
Defined.

End scheduler.
